(** * Sales-simulation engine of [script.js]: financial projection core

    The engine of [src/script.js] (section 4 "CÁLCULOS FINANCEIROS" and
    section 6 "CÁLCULO GERAL E RESUMO") is embedded function by function:
    [applyDiscount], [updateValueByINCC], [updateValueByIPCA],
    [calcCashflowForUnit], [calcTIR], the aggregation loop of
    [runSimulation], [calcPayback] and [calcROI].

    Numbers.  The source is read twice.

    In the first reading a JavaScript number is a [num]: an exact
    rational or one of the three special values [+Infinity],
    [-Infinity], [NaN]. Rounding of binary64 and the sign of zero are
    idealised away (every finite operation is exact, [x / 0] is taken
    with a positive zero); the special values and their propagation are
    kept, because the code can produce them (division by
    [entradaMonths = 0], [undefined + x] on a read past the end of an
    array, [Math.min()] of no argument). This reading carries the
    properties that rounding does not touch: which months are written,
    where [NaN] appears, bounds, order and sign of amounts.

    In the second reading, module [B64], a number is an IEEE 754
    binary64 value and every operation rounds as the language says.
    This reading carries the properties whose result rounding decides:
    the rate [calcTIR] stops at, the month [calcPayback] returns, the
    digits [calcROI] prints and the order in which [runSimulation] adds
    the vectors.

    Arrays.  A JavaScript array is a list of slots, each a hole or a
    number; a write past the end extends the array, as in the language. *)

From Stdlib Require Import QArith Qcanon Qround Qabs Qpower Lqa ZArith Lia String Ascii.
From Stdlib Require Import SpecFloat.
From stdpp Require Import base decidable option list numbers pretty.

Local Open Scope Z_scope.

(** ** JavaScript numbers *)

Module Js.

Inductive num : Type :=
  | Fin (q : Qc)
  | PInf
  | NInf
  | NaN.

(** Finite constants, written the way the source writes them. *)
Definition lit (q : Q) : num := Fin (Q2Qc q).
Definition of_Z (z : Z) : num := Fin (Q2Qc (inject_Z z)).

Definition Qc_ltb (x y : Qc) : bool :=
  match (x ?= y)%Qc with Lt => true | _ => false end.
Definition Qc_leb (x y : Qc) : bool :=
  match (x ?= y)%Qc with Gt => false | _ => true end.
Definition Qc_eqb (x y : Qc) : bool :=
  match (x ?= y)%Qc with Eq => true | _ => false end.

(** The infinity carrying the sign of a finite factor; [0 * Infinity]
    and [0 / 0] are [NaN]. *)
Definition signed_inf (q : Qc) : num :=
  match (q ?= 0)%Qc with Gt => PInf | Lt => NInf | Eq => NaN end.

Definition num_neg (a : num) : num :=
  match a with
  | Fin q => Fin (- q)%Qc
  | PInf => NInf
  | NInf => PInf
  | NaN => NaN
  end.

Definition num_add (a b : num) : num :=
  match a, b with
  | NaN, _ | _, NaN => NaN
  | Fin x, Fin y => Fin (x + y)%Qc
  | PInf, NInf | NInf, PInf => NaN
  | PInf, _ | _, PInf => PInf
  | NInf, _ | _, NInf => NInf
  end.

Definition num_sub (a b : num) : num := num_add a (num_neg b).

Definition num_mul (a b : num) : num :=
  match a, b with
  | NaN, _ | _, NaN => NaN
  | Fin x, Fin y => Fin (x * y)%Qc
  | Fin x, PInf | PInf, Fin x => signed_inf x
  | Fin x, NInf | NInf, Fin x => signed_inf (- x)%Qc
  | PInf, PInf | NInf, NInf => PInf
  | PInf, NInf | NInf, PInf => NInf
  end.

Definition num_div (a b : num) : num :=
  match a, b with
  | NaN, _ | _, NaN => NaN
  | Fin x, Fin y => if Qc_eqb y 0 then signed_inf x else Fin (x / y)%Qc
  | Fin _, (PInf | NInf) => Fin 0%Qc
  | PInf, Fin y => if Qc_ltb y 0 then NInf else PInf
  | NInf, Fin y => if Qc_ltb y 0 then PInf else NInf
  | (PInf | NInf), (PInf | NInf) => NaN
  end.

(** Relational operators: every comparison with [NaN] is false. *)
Definition num_lt (a b : num) : bool :=
  match a, b with
  | NaN, _ | _, NaN => false
  | Fin x, Fin y => Qc_ltb x y
  | NInf, (Fin _ | PInf) => true
  | Fin _, PInf => true
  | _, _ => false
  end.

Definition num_le (a b : num) : bool :=
  match a, b with
  | NaN, _ | _, NaN => false
  | Fin x, Fin y => Qc_leb x y
  | NInf, _ => true
  | _, PInf => true
  | _, _ => false
  end.

Definition num_gt (a b : num) : bool := num_lt b a.
Definition num_ge (a b : num) : bool := num_le b a.

(** [Math.abs], [Math.max] of two arguments, [Math.min] of a spread
    argument list ([+Infinity] for no argument, [NaN] as soon as one
    argument is [NaN]). *)
Definition Math_abs (a : num) : num :=
  match a with
  | Fin q => Fin (if Qc_ltb q 0 then - q else q)%Qc
  | PInf | NInf => PInf
  | NaN => NaN
  end.

Definition Math_max (a b : num) : num :=
  match a, b with
  | NaN, _ | _, NaN => NaN
  | _, _ => if num_lt a b then b else a
  end.

Definition min2 (lowest x : num) : num :=
  match lowest, x with
  | NaN, _ | _, NaN => NaN
  | _, _ => if num_lt x lowest then x else lowest
  end.

Definition Math_min (args : list num) : num := fold_left min2 args PInf.

(** [Math.pow] at an integer exponent (every call site of the source
    passes a month index): repeated multiplication, the reciprocal for a
    negative exponent, and [1] for exponent [0] whatever the base. *)
Fixpoint pow_nat (b : num) (n : nat) : num :=
  match n with
  | O => Fin 1%Qc
  | S n' => num_mul (pow_nat b n') b
  end.

Definition Math_pow (b : num) (e : Z) : num :=
  match e with
  | Z0 => Fin 1%Qc
  | Zpos p => pow_nat b (Pos.to_nat p)
  | Zneg p => num_div (Fin 1%Qc) (pow_nat b (Pos.to_nat p))
  end.

End Js.
Import Js.

Coercion Fin : Qc >-> num.

Declare Scope num_scope.
Delimit Scope num_scope with num.
Bind Scope num_scope with num.
Infix "+" := num_add : num_scope.
Infix "-" := num_sub : num_scope.
Infix "*" := num_mul : num_scope.
Infix "/" := num_div : num_scope.
Infix "<" := num_lt : num_scope.
Infix "<=" := num_le : num_scope.
Infix ">" := num_gt : num_scope.
Infix ">=" := num_ge : num_scope.

(** ** JavaScript arrays

    A slot is [None] for a hole and [Some x] for the number [x]. Only
    the elements are modelled: a write under a key that is not an array
    index (a negative number, or one beyond [2^32 - 2]) creates a named
    property that the source never reads back, and leaves the elements
    and the length as they are. *)

Abbreviation array := (list (option num)).

Definition dense (xs : list num) : array := Some <$> xs.

(** [new Array(n).fill(x)] *)
Definition Array_fill (n : nat) (x : num) : array := replicate n (Some x).

(** [a[i]] read as an operand of [+]: a hole or an index past the end
    reads [undefined], which [+] converts to [NaN]. *)
Definition get (a : array) (i : nat) : num :=
  match a !! i with
  | Some (Some x) => x
  | _ => NaN
  end.

(** [a[i] = x] at an array index: in place inside the array, and past
    the end the array grows, the skipped positions being holes. *)
Definition assign (a : array) (i : nat) (x : num) : array :=
  if decide (i < length a)%nat then <[i := Some x]> a
  else a ++ replicate (i - length a) None ++ [Some x].

Definition is_index (i : Z) : bool := (0 <=? i) && (i <? 4294967295).

(** [a[i] += v] *)
Definition add_at (a : array) (i : Z) (v : num) : array :=
  if is_index i
  then assign a (Z.to_nat i) (get a (Z.to_nat i) + v)%num
  else a.

(** [a.reduce((acc, v, idx) => f(acc, v, idx), init)] and
    [a.forEach((v, idx) => ...)] with the state the callback updates
    threaded through: both visit the elements in index order and skip
    the holes. *)
Fixpoint reduce_from {A : Type} (f : A -> num -> nat -> A)
    (a : array) (idx : nat) (acc : A) : A :=
  match a with
  | [] => acc
  | None :: a' => reduce_from f a' (S idx) acc
  | Some v :: a' => reduce_from f a' (S idx) (f acc v idx)
  end.

Definition reduce {A : Type} (f : A -> num -> nat -> A) (a : array) (init : A) : A :=
  reduce_from f a 0%nat init.

Definition forEach {A : Type} (f : A -> num -> nat -> A) (a : array) (st : A) : A :=
  reduce_from f a 0%nat st.

(** [...a] in an argument list: a hole spreads as [undefined], which
    [Math.min] converts to [NaN]. *)
Definition spread (a : array) : list num :=
  (fun s : option num => match s with Some x => x | None => NaN end) <$> a.

(** ** State: units and configuration

    Percentages, rates and prices are finite numbers; the month fields
    are the integers the data model takes them to be. *)

Record Unit : Type := {
  id : Z;
  descricao : string;
  valor : Qc;
  categoria : string;
  status : string
}.

Record config : Type := {
  incc : Qc;
  ipca : Qc;
  entradaPct : Qc;
  entradaMonths : Z;
  payAtoPct : Qc;
  payInterPct : Qc;
  payInterMonth : Z;
  payChavesPct : Qc;
  preLaunchMonths : Z;
  launchMonths : Z;
  discountPre : Qc;
  discountLaunch : Qc
}.

(** The initial [state.config]. *)
Definition state_config : config := {|
  incc := Q2Qc 0.0045;
  ipca := Q2Qc 0.005;
  entradaPct := Q2Qc 30;
  entradaMonths := 6;
  payAtoPct := Q2Qc 0;
  payInterPct := Q2Qc 0;
  payInterMonth := 6;
  payChavesPct := Q2Qc 0;
  preLaunchMonths := 2;
  launchMonths := 3;
  discountPre := Q2Qc 10;
  discountLaunch := Q2Qc 5
|}.

Definition apto_101 : Unit :=
  {| id := 1; descricao := "Apto 101"; valor := Q2Qc 300000;
     categoria := "Apto"; status := "Disponível" |}.


(** ** Financial calculations

    The functions read the global [state.config]; here it is the
    section variable [cfg], an explicit first argument once the section
    is closed. *)

Section Engine.

Variable cfg : config.

Local Open Scope num_scope.

Definition applyDiscount (unitValue : num) (catIdx : Z) : num :=
  if (catIdx <? preLaunchMonths cfg)%Z then
    unitValue * (lit 1 - discountPre cfg / lit 100)
  else if (catIdx <? preLaunchMonths cfg + launchMonths cfg)%Z then
    unitValue * (lit 1 - discountLaunch cfg / lit 100)
  else unitValue.

Definition updateValueByINCC (initialValue : num) (monthIdx : Z) : num :=
  initialValue * Math_pow (lit 1 + incc cfg) monthIdx.

Definition updateValueByIPCA (initialValue : num) (monthIdx : Z) : num :=
  initialValue * Math_pow (lit 1 + ipca cfg) monthIdx.

(** [for (let m = first; m <= cfg.entradaMonths; m++) cashFlow[m] += v],
    with [n] the number of iterations still to run. *)
Fixpoint entrada_loop (n : nat) (m : Z) (v : num) (cashFlow : array) : array :=
  match n with
  | O => cashFlow
  | S n' => entrada_loop n' (m + 1)%Z v (add_at cashFlow m v)
  end.

Definition calcCashflowForUnit (unit : Unit) (catIdx : Z) : array :=
  let cashFlow := Array_fill 24 (lit 0) in
  let basePrice := applyDiscount (valor unit) catIdx in
  let entradaTotal := (entradaPct cfg / lit 100) * basePrice in
  let payAto := (payAtoPct cfg / lit 100) * basePrice in
  let payInter := (payInterPct cfg / lit 100) * basePrice in
  let payChaves := (payChavesPct cfg / lit 100) * basePrice in
  let entradaMensal := entradaTotal / of_Z (entradaMonths cfg) in
  let cashFlow := add_at cashFlow 0 payAto in
  let cashFlow := entrada_loop (Z.to_nat (entradaMonths cfg)) 1 entradaMensal cashFlow in
  let cashFlow :=
    if payInterPct cfg > lit 0
    then add_at cashFlow (payInterMonth cfg)
           (updateValueByINCC payInter (payInterMonth cfg))
    else cashFlow in
  let monthChaves := 23%Z in
  add_at cashFlow monthChaves (updateValueByIPCA payChaves monthChaves).

End Engine.

(** ** Approximate internal rate of return *)

Section Solver.

Local Open Scope num_scope.

Definition maxIter : nat := 200.
Definition tolerance : num := lit 0.000001.

Definition npv_of (cashflows : array) (rate : num) : num :=
  reduce (fun acc v idx => acc + v / Math_pow (lit 1 + rate) (Z.of_nat idx))
         cashflows (lit 0).

(** The [for] loop of [calcTIR] with [n] iterations left; leaving the
    recursion at once is the [break]. *)
Fixpoint calcTIR_loop (cashflows : array) (n : nat) (rate : num) : num :=
  match n with
  | O => rate
  | S n' =>
      let npv := npv_of cashflows rate in
      if Math_abs npv < tolerance then rate
      else
        let rate := rate + (if npv > lit 0 then lit 0.01 else lit (-0.01)) in
        let rate := Math_max rate (lit (-0.99)) in
        calcTIR_loop cashflows n' rate
  end.

Definition calcTIR (cashflows : array) : num :=
  calcTIR_loop cashflows maxIter (lit 0.01).

End Solver.

(** ** General calculation and summary *)

Section Summary.

Local Open Scope num_scope.

(** The inner [flow.forEach((v, m) => { allFlows[m] += v; })]. *)
Definition add_flow (allFlows flow : array) : array :=
  forEach (fun allFlows v m => add_at allFlows (Z.of_nat m) v) flow allFlows.

(** The outer [state.units.forEach((u, idx) => ...)] of [runSimulation],
    [idx] being the position of the unit in the list. *)
Fixpoint units_forEach (cfg : config) (units : list Unit) (idx : Z)
    (allFlows : array) : array :=
  match units with
  | [] => allFlows
  | u :: units' =>
      let flow := calcCashflowForUnit cfg u idx in
      units_forEach cfg units' (idx + 1)%Z (add_flow allFlows flow)
  end.

(** The value of [allFlows] that [runSimulation] hands to [calcTIR],
    [calcPayback], [calcROI] and the chart. *)
Definition runSimulation_allFlows (cfg : config) (units : list Unit) : array :=
  units_forEach cfg units 0 (Array_fill 24 (lit 0)).

(** The same accumulation over vectors that are already built. *)
Definition aggregate (flows : list array) : array :=
  fold_left add_flow flows (Array_fill 24 (lit 0)).

(** [calcPayback]: [n] iterations of the loop are left at index [i]. *)
Fixpoint calcPayback_loop (flows : array) (n i : nat) (acc : num) : nat :=
  match n with
  | O => length flows
  | S n' =>
      let acc := acc + get flows i in
      if acc >= lit 0 then i else calcPayback_loop flows n' (S i) acc
  end.

Definition calcPayback (flows : array) : nat :=
  calcPayback_loop flows (length flows) 0 (lit 0).

(** What [calcROI] returns is the number [0] or the string that
    [toFixed(2)] builds. *)
Inductive value : Type :=
  | Number (x : num)
  | Str (s : string).

(** [x.toFixed(2)]: for a finite [x] the sign is split off, [n] is the
    integer closest to [|x| * 100] (the larger one on a tie), and the
    result is the decimal digits of [n] with a point before the last
    two. (From [1e21] on JavaScript switches to exponent notation; a
    binary64 that large is an integer, so only the notation differs.) *)
Definition hundredths (q : Qc) : Z :=
  Qfloor (Qabs q * 100 + (1 # 2))%Q.

Definition two_digits (r : Z) : string :=
  ((if (r <? 10)%Z then "0" else "") ++ pretty r)%string.

Definition fixed2 (negative : bool) (n : Z) : string :=
  ((if negative then "-" else "") ++ pretty (n / 100)%Z
     ++ "." ++ two_digits (n mod 100))%string.

Definition toFixed2 (x : num) : string :=
  match x with
  | Fin q => fixed2 (Qc_ltb q 0) (hundredths q)
  | PInf => "Infinity"
  | NInf => "-Infinity"
  | NaN => "NaN"
  end.

Definition calcROI (flows : array) : value :=
  let total := reduce (fun a b _ => a + b) flows (lit 0) in
  let invested := num_neg (Math_min (spread flows)) in
  if invested <= lit 0 then Number (lit 0)
  else Str (toFixed2 ((total / invested) * lit 100)).

End Summary.

(** ** The summary panel

    What [runSimulation] writes into the page once [allFlows] is built.
    [formatCurrency] ([toLocaleString] for [pt-BR]) is not modelled: of
    the total revenue only the number is kept. *)

Section Panel.

Local Open Scope num_scope.

(** [allFlows.reduce((a, b) => a + b, 0)] *)
Definition receitaTotal (allFlows : array) : num :=
  reduce (fun a b _ => a + b) allFlows (lit 0).







End Panel.

(** * The engine over binary64

    The second reading of the same source. A number is an IEEE 754
    binary64 value, [spec_float] of the Standard Library at precision 53:
    the two zeros, the two infinities, [NaN], and [(-1)^s * m * 2^e].
    Every operation rounds to nearest, ties to even, as the language
    prescribes. This is the reading for the results that rounding
    decides: the aggregate, the month of the payback, the exit of the
    solver and the digits of the return. *)

Module B64.

Abbreviation float := spec_float.

Definition prec : Z := 53.
Definition emax : Z := 1024.

Definition add (a b : float) : float := SFadd prec emax a b.
Definition sub (a b : float) : float := SFsub prec emax a b.
Definition mul (a b : float) : float := SFmul prec emax a b.
Definition div (a b : float) : float := SFdiv prec emax a b.
Definition neg (a : float) : float := SFopp a.

(** Relational operators: every comparison with [NaN] is false. *)
Definition lt (a b : float) : bool := SFltb a b.
Definition le (a b : float) : bool := SFleb a b.
Definition gt (a b : float) : bool := SFltb b a.
Definition ge (a b : float) : bool := SFleb b a.

(** The literals of the source: an integer [z], and the decimal
    [m / 10^k] (so [0.01] is [decimal 1 2] and [1e-6] is [decimal 1 6]),
    each the binary64 nearest to the number written. *)
Definition of_Z (z : Z) : float := binary_normalize prec emax z 0 false.
Definition decimal (m k : Z) : float := div (of_Z m) (of_Z (10 ^ k)).
Definition zero : float := S754_zero false.

Definition Math_abs (a : float) : float := SFabs a.

(** [Math.max] of two arguments and [Math.min] of a spread argument
    list: [NaN] as soon as one argument is [NaN], [+0] above [-0], and
    [+Infinity] for [Math.min] of no argument. *)
Definition Math_max (a b : float) : float :=
  match a, b with
  | S754_nan, _ | _, S754_nan => S754_nan
  | S754_zero sa, S754_zero sb => S754_zero (sa && sb)
  | _, _ => if lt a b then b else a
  end.

Definition min2 (lowest x : float) : float :=
  match lowest, x with
  | S754_nan, _ | _, S754_nan => S754_nan
  | S754_zero sl, S754_zero sx => S754_zero (sl || sx)
  | _, _ => if lt x lowest then x else lowest
  end.

Definition Math_min (args : list float) : float :=
  fold_left min2 args (S754_infinity false).

(** Arrays, as in the first reading: a slot is a hole or a number, a
    hole or an index past the end reads [undefined], which [+] converts
    to [NaN], and a write past the end extends the array. *)
Abbreviation array := (list (option float)).

Definition dense (xs : list float) : array := Some <$> xs.

Definition Array_fill (n : nat) (x : float) : array := replicate n (Some x).

Definition get (a : array) (i : nat) : float :=
  match a !! i with
  | Some (Some x) => x
  | _ => S754_nan
  end.

Definition assign (a : array) (i : nat) (x : float) : array :=
  if decide (i < length a)%nat then <[i := Some x]> a
  else a ++ replicate (i - length a) None ++ [Some x].

Definition add_at (a : array) (i : Z) (v : float) : array :=
  if is_index i
  then assign a (Z.to_nat i) (add (get a (Z.to_nat i)) v)
  else a.

Fixpoint reduce_from {A : Type} (f : A -> float -> nat -> A)
    (a : array) (idx : nat) (acc : A) : A :=
  match a with
  | [] => acc
  | None :: a' => reduce_from f a' (S idx) acc
  | Some v :: a' => reduce_from f a' (S idx) (f acc v idx)
  end.

Definition reduce {A : Type} (f : A -> float -> nat -> A) (a : array) (init : A) : A :=
  reduce_from f a 0%nat init.

Definition forEach {A : Type} (f : A -> float -> nat -> A) (a : array) (st : A) : A :=
  reduce_from f a 0%nat st.

Definition spread (a : array) : list float :=
  (fun s : option float => match s with Some x => x | None => S754_nan end) <$> a.

Record Unit : Type := {
  id : Z;
  descricao : string;
  valor : float;
  categoria : string;
  status : string
}.

Record config : Type := {
  incc : float;
  ipca : float;
  entradaPct : float;
  entradaMonths : Z;
  payAtoPct : float;
  payInterPct : float;
  payInterMonth : Z;
  payChavesPct : float;
  preLaunchMonths : Z;
  launchMonths : Z;
  discountPre : float;
  discountLaunch : float
}.

(** [Math.pow] is the one operation of the engine whose result the
    language leaves to the implementation (it is
    "implementation-approximated"): it is the variable [Math_pow], taken
    at the integer exponents the source passes, and everything below
    holds for every implementation of it. *)
Section WithPow.

Variable Math_pow : float -> Z -> float.
Variable cfg : config.

Definition applyDiscount (unitValue : float) (catIdx : Z) : float :=
  if (catIdx <? preLaunchMonths cfg)%Z then
    mul unitValue (sub (of_Z 1) (div (discountPre cfg) (of_Z 100)))
  else if (catIdx <? preLaunchMonths cfg + launchMonths cfg)%Z then
    mul unitValue (sub (of_Z 1) (div (discountLaunch cfg) (of_Z 100)))
  else unitValue.

Definition updateValueByINCC (initialValue : float) (monthIdx : Z) : float :=
  mul initialValue (Math_pow (add (of_Z 1) (incc cfg)) monthIdx).

Definition updateValueByIPCA (initialValue : float) (monthIdx : Z) : float :=
  mul initialValue (Math_pow (add (of_Z 1) (ipca cfg)) monthIdx).

Fixpoint entrada_loop (n : nat) (m : Z) (v : float) (cashFlow : array) : array :=
  match n with
  | O => cashFlow
  | S n' => entrada_loop n' (m + 1)%Z v (add_at cashFlow m v)
  end.

Definition calcCashflowForUnit (unit : Unit) (catIdx : Z) : array :=
  let cashFlow := Array_fill 24 zero in
  let basePrice := applyDiscount (valor unit) catIdx in
  let entradaTotal := mul (div (entradaPct cfg) (of_Z 100)) basePrice in
  let payAto := mul (div (payAtoPct cfg) (of_Z 100)) basePrice in
  let payInter := mul (div (payInterPct cfg) (of_Z 100)) basePrice in
  let payChaves := mul (div (payChavesPct cfg) (of_Z 100)) basePrice in
  let entradaMensal := div entradaTotal (of_Z (entradaMonths cfg)) in
  let cashFlow := add_at cashFlow 0 payAto in
  let cashFlow := entrada_loop (Z.to_nat (entradaMonths cfg)) 1 entradaMensal cashFlow in
  let cashFlow :=
    if gt (payInterPct cfg) zero
    then add_at cashFlow (payInterMonth cfg)
           (updateValueByINCC payInter (payInterMonth cfg))
    else cashFlow in
  let monthChaves := 23%Z in
  add_at cashFlow monthChaves (updateValueByIPCA payChaves monthChaves).

Definition maxIter : nat := 200.
Definition tolerance : float := decimal 1 6.

Definition npv_of (cashflows : array) (rate : float) : float :=
  reduce (fun acc v idx =>
            add acc (div v (Math_pow (add (of_Z 1) rate) (Z.of_nat idx))))
         cashflows zero.

Fixpoint calcTIR_loop (cashflows : array) (n : nat) (rate : float) : float :=
  match n with
  | O => rate
  | S n' =>
      let npv := npv_of cashflows rate in
      if lt (Math_abs npv) tolerance then rate
      else
        let rate := add rate (if gt npv zero then decimal 1 2 else neg (decimal 1 2)) in
        let rate := Math_max rate (neg (decimal 99 2)) in
        calcTIR_loop cashflows n' rate
  end.

Definition calcTIR (cashflows : array) : float :=
  calcTIR_loop cashflows maxIter (decimal 1 2).

Definition add_flow (allFlows flow : array) : array :=
  forEach (fun allFlows v m => add_at allFlows (Z.of_nat m) v) flow allFlows.

Fixpoint units_forEach (units : list Unit) (idx : Z) (allFlows : array) : array :=
  match units with
  | [] => allFlows
  | u :: units' =>
      let flow := calcCashflowForUnit u idx in
      units_forEach units' (idx + 1)%Z (add_flow allFlows flow)
  end.

Definition runSimulation_allFlows (units : list Unit) : array :=
  units_forEach units 0 (Array_fill 24 zero).

End WithPow.

(** The accumulation of [runSimulation] over vectors that are already
    built. *)
Definition aggregate (flows : list array) : array :=
  fold_left add_flow flows (Array_fill 24 zero).

Fixpoint calcPayback_loop (flows : array) (n i : nat) (acc : float) : nat :=
  match n with
  | O => length flows
  | S n' =>
      let acc := add acc (get flows i) in
      if ge acc zero then i else calcPayback_loop flows n' (S i) acc
  end.

Definition calcPayback (flows : array) : nat :=
  calcPayback_loop flows (length flows) 0 zero.

Inductive value : Type :=
  | Number (x : float)
  | Str (s : string).

(** [x.toFixed(2)] for [x = (-1)^s * m * 2^e]. With [n] the integer for
    which [n / 100] is closest to [m * 2^e], the larger one on a tie,
    the text is the sign, the digits of [n] and a point before the last
    two. A value of [10^21] or more is written in exponent notation
    instead, with the digits [Number::toString] finds; that text is not
    modelled: [None]. *)
Definition hundredths_of (m : positive) (e : Z) : Z :=
  match e with
  | Zneg k => (200 * Zpos m + 2 ^ Zpos k) / 2 ^ (Zpos k + 1)
  | _ => 100 * (Zpos m * 2 ^ e)
  end.

Definition below_1e21 (m : positive) (e : Z) : bool :=
  match e with
  | Zneg k => Zpos m <? 10 ^ 21 * 2 ^ Zpos k
  | _ => Zpos m * 2 ^ e <? 10 ^ 21
  end.

Definition toFixed2 (x : float) : option string :=
  match x with
  | S754_nan => Some "NaN"%string
  | S754_infinity false => Some "Infinity"%string
  | S754_infinity true => Some "-Infinity"%string
  | S754_zero _ => Some (fixed2 false 0)
  | S754_finite s m e =>
      if below_1e21 m e then Some (fixed2 s (hundredths_of m e)) else None
  end.

Definition calcROI (flows : array) : option value :=
  let total := reduce (fun a b _ => add a b) flows zero in
  let invested := neg (Math_min (spread flows)) in
  if le invested zero then Some (Number zero)
  else Str <$> toFixed2 (mul (div total invested) (of_Z 100)).

End B64.

Declare Scope b64_scope.
Delimit Scope b64_scope with b64.
Infix "+" := B64.add : b64_scope.
Infix "-" := B64.sub : b64_scope.
Infix "*" := B64.mul : b64_scope.
Infix "/" := B64.div : b64_scope.
Infix "<" := B64.lt : b64_scope.
Infix "<=" := B64.le : b64_scope.
Infix ">" := B64.gt : b64_scope.
Infix ">=" := B64.ge : b64_scope.

(** * Vocabulary of the specification

    The definitions below are not part of the program: they say, in the
    words of the specification, what the properties further down compare
    the program with. *)

Section Vocabulary.

Local Open Scope num_scope.



(** The discount policy, over exact rationals. *)
Definition discount_bands (cfg : config) (baseValue : Qc) (phaseIndex : Z) : Qc :=
  if decide (phaseIndex < preLaunchMonths cfg)%Z then
    (baseValue * (1 - discountPre cfg / Q2Qc 100))%Qc
  else if decide (preLaunchMonths cfg <= phaseIndex
                  < preLaunchMonths cfg + launchMonths cfg)%Z then
    (baseValue * (1 - discountLaunch cfg / Q2Qc 100))%Qc
  else baseValue.

(** The escalation, over exact rationals:
    [initialValue * (1 + rate) ^ monthIndex]. *)
Definition escalate (initialValue : Qc) (monthIndex : nat) (rate : Qc) : Qc :=
  (initialValue * (1 + rate) ^ monthIndex)%Qc.

(** The four payment legs of a unit, each as the amount it contributes
    to month [m], and their sum. *)
Definition basePrice (cfg : config) (unit : Unit) (catIdx : Z) : num :=
  applyDiscount cfg (valor unit) catIdx.

Definition leg_ato (cfg : config) (unit : Unit) (catIdx : Z) (m : nat) : num :=
  if decide (m = 0%nat)
  then (payAtoPct cfg / lit 100) * basePrice cfg unit catIdx
  else lit 0.

Definition leg_entrada (cfg : config) (unit : Unit) (catIdx : Z) (m : nat) : num :=
  if decide (1 <= Z.of_nat m <= entradaMonths cfg)%Z
  then ((entradaPct cfg / lit 100) * basePrice cfg unit catIdx)
       / of_Z (entradaMonths cfg)
  else lit 0.

Definition leg_inter (cfg : config) (unit : Unit) (catIdx : Z) (m : nat) : num :=
  if payInterPct cfg > lit 0 then
    if decide (Z.of_nat m = payInterMonth cfg)
    then updateValueByINCC cfg
           ((payInterPct cfg / lit 100) * basePrice cfg unit catIdx)
           (payInterMonth cfg)
    else lit 0
  else lit 0.

Definition leg_chaves (cfg : config) (unit : Unit) (catIdx : Z) (m : nat) : num :=
  if decide (m = 23%nat)
  then updateValueByIPCA cfg
         ((payChavesPct cfg / lit 100) * basePrice cfg unit catIdx) 23
  else lit 0.

Definition legs (cfg : config) (unit : Unit) (catIdx : Z) (m : nat) : num :=
  leg_ato cfg unit catIdx m + leg_entrada cfg unit catIdx m
  + leg_inter cfg unit catIdx m + leg_chaves cfg unit catIdx m.

(** The same four legs as exact rationals, the discount and the
    escalation written out: the base price is the discounted value, and
    an escalated leg is its amount times [(1 + rate) ^ month]. *)
Definition base_price (cfg : config) (unit : Unit) (catIdx : Z) : Qc :=
  discount_bands cfg (valor unit) catIdx.


Definition instalment_at (cfg : config) (unit : Unit) (catIdx : Z) (m : nat) : Qc :=
  if decide (1 <= Z.of_nat m <= entradaMonths cfg)%Z
  then (entradaPct cfg / Q2Qc 100 * base_price cfg unit catIdx
        / Q2Qc (inject_Z (entradaMonths cfg)))%Qc
  else 0%Qc.

Definition inter_at (cfg : config) (unit : Unit) (catIdx : Z) (m : nat) : Qc :=
  if decide ((0 < payInterPct cfg)%Qc /\ Z.of_nat m = payInterMonth cfg)
  then escalate (payInterPct cfg / Q2Qc 100 * base_price cfg unit catIdx)%Qc
         m (incc cfg)
  else 0%Qc.


(** The inputs the specification calls degenerate, and a vector as the
    data model wants it: exactly 24 entries, each a finite number. *)
Definition degenerate (cfg : config) : Prop :=
  entradaMonths cfg = 0%Z
  \/ ~ (0 <= payInterMonth cfg <= 23)%Z
  \/ (23 < entradaMonths cfg)%Z.

Definition well_formed_vector (a : array) : Prop :=
  length a = 24%nat
  /\ forall m, (m < 24)%nat -> exists q : Qc, a !! m = Some (Some (Fin q)).

(** [state.config] with the instalment window stretched to 24 months,
    and with an intermediate payment of 20% placed at month 26. *)
Definition config_entrada_24 : config := {|
  incc := Q2Qc 0.0045; ipca := Q2Qc 0.005;
  entradaPct := Q2Qc 30; entradaMonths := 24;
  payAtoPct := Q2Qc 0;
  payInterPct := Q2Qc 0; payInterMonth := 6;
  payChavesPct := Q2Qc 0;
  preLaunchMonths := 2; launchMonths := 3;
  discountPre := Q2Qc 10; discountLaunch := Q2Qc 5
|}.

Definition config_inter_26 : config := {|
  incc := Q2Qc 0.0045; ipca := Q2Qc 0.005;
  entradaPct := Q2Qc 30; entradaMonths := 6;
  payAtoPct := Q2Qc 0;
  payInterPct := Q2Qc 20; payInterMonth := 26;
  payChavesPct := Q2Qc 0;
  preLaunchMonths := 2; launchMonths := 3;
  discountPre := Q2Qc 10; discountLaunch := Q2Qc 5
|}.

(** [state.config] without instalments, with the other three legs. *)
Definition config_entrada_0 : config := {|
  incc := Q2Qc 0.0045; ipca := Q2Qc 0.005;
  entradaPct := Q2Qc 30; entradaMonths := 0;
  payAtoPct := Q2Qc 10;
  payInterPct := Q2Qc 20; payInterMonth := 12;
  payChavesPct := Q2Qc 40;
  preLaunchMonths := 2; launchMonths := 3;
  discountPre := Q2Qc 10; discountLaunch := Q2Qc 5
|}.




(** The cumulative sum [flows[0] + ... + flows[i]]. *)
Definition cumulative (xs : list num) (i : nat) : num :=
  foldr num_add (lit 0) (take (S i) xs).


(** The sum of a list of numbers, and what one unit brings in over the
    24 months without the entrada: the ato, the escalated intermediate
    payment when there is one and the escalated delivery payment. *)
Definition sum_list (xs : list num) : num := foldr num_add (lit 0) xs.

Definition inter_total (cfg : config) (unit : Unit) (catIdx : Z) : num :=
  if payInterPct cfg > lit 0
  then updateValueByINCC cfg
         ((payInterPct cfg / lit 100) * basePrice cfg unit catIdx)
         (payInterMonth cfg)
  else lit 0.

Definition chaves_total (cfg : config) (unit : Unit) (catIdx : Z) : num :=
  updateValueByIPCA cfg
    ((payChavesPct cfg / lit 100) * basePrice cfg unit catIdx) 23.

Definition unit_total_without_entrada (cfg : config) (unit : Unit) (catIdx : Z) : num :=
  (payAtoPct cfg / lit 100) * basePrice cfg unit catIdx
  + inter_total cfg unit catIdx
  + chaves_total cfg unit catIdx.

(** The rate of [z] hundredths, [z / 100]. *)
Definition pct_rate (z : Z) : num := Fin (Q2Qc (inject_Z z * (1 # 100))).

(** An array with a [NaN] among its elements. *)
Definition has_NaN (a : array) : Prop := exists j : nat, a !! j = Some (Some NaN).

(** [Σ qs[i] / b^(k+i)] over exact rationals. *)
Fixpoint npv_from (b : Qc) (k : nat) (qs : list Qc) : Qc :=
  match qs with
  | [] => 0%Qc
  | q :: qs' => (q / b ^ k + npv_from b (S k) qs')%Qc
  end.

End Vocabulary.

(** ** Vocabulary over binary64

    The same words for the second reading: every sum is taken from left
    to right from [0], each addition rounded, which is what a sum
    written [a + b + c] is in the language. *)

Section Vocabulary64.

Local Open Scope b64_scope.

(** The cumulative sum [flows[0] + ... + flows[i]] and the sum of all
    the flows. *)
Definition running_sum (xs : list B64.float) (i : nat) : B64.float :=
  fold_left B64.add (take (S i) xs) B64.zero.

Definition total_of (xs : list B64.float) : B64.float :=
  fold_left B64.add xs B64.zero.

(** The rate search: [npv = Σ cashflow[i] / (1 + rate)^i] over all
    indices, the tolerance [|npv| < 1e-6], a step of [+0.01] when
    [npv > 0] and of [-0.01] otherwise, clamped to the floor [-0.99],
    and the rate reached after [k] steps from [0.01]. *)
Definition npv_at (pow : B64.float -> Z -> B64.float)
    (xs : list B64.float) (rate : B64.float) : B64.float :=
  fold_left B64.add
    (imap (fun i v => v / pow (B64.of_Z 1 + rate) (Z.of_nat i)) xs) B64.zero.

Definition within_tolerance (pow : B64.float -> Z -> B64.float)
    (xs : list B64.float) (rate : B64.float) : bool :=
  B64.Math_abs (npv_at pow xs rate) < B64.decimal 1 6.

Definition rate_floor : B64.float := B64.neg (B64.decimal 99 2).

Definition floor_clamp (rate : B64.float) : B64.float :=
  if rate < rate_floor then rate_floor else rate.

Definition search_step (pow : B64.float -> Z -> B64.float)
    (xs : list B64.float) (rate : B64.float) : B64.float :=
  floor_clamp (if npv_at pow xs rate > B64.zero
               then rate + B64.decimal 1 2
               else rate - B64.decimal 1 2).

Definition rate_at (pow : B64.float -> Z -> B64.float)
    (xs : list B64.float) (k : nat) : B64.float :=
  Nat.iter k (search_step pow xs) (B64.decimal 1 2).

(** One implementation of [Math.pow] at integer exponents, by repeated
    multiplication: exact at the exponents 0 and 1, where every
    implementation returns [1] and the base. *)
Fixpoint pow_nat64 (b : B64.float) (n : nat) : B64.float :=
  match n with
  | O => B64.of_Z 1
  | S n' => pow_nat64 b n' * b
  end.

Definition pow_repeated (b : B64.float) (e : Z) : B64.float :=
  match e with
  | Z0 => B64.of_Z 1
  | Zpos p => pow_nat64 b (Pos.to_nat p)
  | Zneg p => B64.of_Z 1 / pow_nat64 b (Pos.to_nat p)
  end.

(** Vectors of 24 entries, entry [m] of each vector of a list, and the
    vectors [runSimulation] builds, one per unit, in list order. *)
Definition vector24 (xs : list B64.float) : Prop := length xs = 24%nat.

Definition entries_at (vs : list (list B64.float)) (m : nat) : list B64.float :=
  (fun v => nth m v B64.zero) <$> vs.

Fixpoint unit_vectors (pow : B64.float -> Z -> B64.float) (cfg : B64.config)
    (units : list B64.Unit) (idx : Z) : list B64.array :=
  match units with
  | [] => []
  | u :: units' =>
      B64.calcCashflowForUnit pow cfg u idx :: unit_vectors pow cfg units' (idx + 1)%Z
  end.

(** Element-wise sum of two vectors, each entry rounded. *)
Definition vadd64 (xs ys : list B64.float) : list B64.float :=
  zip_with B64.add xs ys.

(** Two numbers that compare equal: the same number, or two zeros. *)
Definition same_number (a b : B64.float) : Prop :=
  a = b \/ exists sa sb, a = S754_zero sa /\ b = S754_zero sb.

(** The number a finite binary64 stands for. *)
Definition float_value (x : B64.float) : option Q :=
  match x with
  | S754_zero _ => Some 0%Q
  | S754_finite s m e =>
      Some (inject_Z (if s then Z.neg m else Z.pos m) * Qpower 2 e)%Q
  | _ => None
  end.

(** Reading a text of the form [-ddd.dd] back: the sign, and the digits
    as an integer number of hundredths. *)
Definition digit_value (c : ascii) : option Z :=
  let d := (Z.of_N (N_of_ascii c) - 48)%Z in
  if ((0 <=? d) && (d <=? 9))%Z then Some d else None.

Fixpoint read_digits (acc : Z) (s : string) : option Z :=
  match s with
  | EmptyString => Some acc
  | String c s' =>
      match digit_value c with
      | Some d => read_digits (acc * 10 + d)%Z s'
      | None => None
      end
  end.

Fixpoint read_point (acc : Z) (s : string) : option Z :=
  match s with
  | EmptyString => None
  | String c s' =>
      if Ascii.eqb c "."
      then (if (String.length s' =? 2)%nat then read_digits acc s' else None)
      else match digit_value c with
           | Some d => read_point (acc * 10 + d)%Z s'
           | None => None
           end
  end.

Definition read_fixed2 (s : string) : option (bool * Z) :=
  match s with
  | String "-" s' => (fun n => (true, n)) <$> read_point 0 s'
  | _ => (fun n => (false, n)) <$> read_point 0 s
  end.

End Vocabulary64.

(** * Properties *)

(** ** Arithmetic of [num] *)

Section NumFacts.

Local Open Scope Qc_scope.

Lemma Qc_ltb_lt (x y : Qc) : Qc_ltb x y = true <-> x < y.
Proof.
  unfold Qc_ltb. rewrite Qclt_alt.
  destruct (x ?= y); intuition congruence.
Qed.

Lemma Qc_leb_le (x y : Qc) : Qc_leb x y = true <-> x <= y.
Proof.
  unfold Qc_leb. rewrite Qcle_alt.
  destruct (x ?= y); intuition congruence.
Qed.

Lemma Qc_eqb_eq (x y : Qc) : Qc_eqb x y = true <-> x = y.
Proof.
  unfold Qc_eqb. rewrite Qceq_alt.
  destruct (x ?= y); intuition congruence.
Qed.

Lemma Qc_ltb_ge (x y : Qc) : Qc_ltb x y = false <-> y <= x.
Proof.
  rewrite <- not_true_iff_false, Qc_ltb_lt.
  split; [apply Qcnot_lt_le | apply Qcle_not_lt].
Qed.

Lemma Qc_leb_gt (x y : Qc) : Qc_leb x y = false <-> y < x.
Proof.
  rewrite <- not_true_iff_false, Qc_leb_le.
  split; [apply Qcnot_le_lt | apply Qclt_not_le].
Qed.

Lemma Qc_eqQ (x y : Qc) : x = y <-> (x == y)%Q.
Proof. split; [intros ->; reflexivity | apply Qc_is_canon]. Qed.

Lemma this_Q2Qc (q : Q) : (this (Q2Qc q) == q)%Q.
Proof. simpl. apply Qred_correct. Qed.

End NumFacts.

(** Goals over [Qc] are sent to [Q], where [lra], [nra] and [field]
    apply. *)
Ltac to_Q :=
  repeat match goal with
  | H : @eq Qc _ _ |- _ => apply Qc_eqQ in H
  | H : Qc_ltb _ _ = true |- _ => apply Qc_ltb_lt in H
  | H : Qc_ltb _ _ = false |- _ => apply Qc_ltb_ge in H
  | H : Qc_leb _ _ = true |- _ => apply Qc_leb_le in H
  | H : Qc_leb _ _ = false |- _ => apply Qc_leb_gt in H
  | H : Qc_eqb _ _ = true |- _ => apply Qc_eqb_eq in H
  | |- @eq Qc _ _ => apply Qc_eqQ
  | |- Qc_ltb _ _ = true => apply Qc_ltb_lt
  | |- Qc_ltb _ _ = false => apply Qc_ltb_ge
  | |- Qc_leb _ _ = true => apply Qc_leb_le
  | |- Qc_leb _ _ = false => apply Qc_leb_gt
  | |- Qc_eqb _ _ = true => apply Qc_eqb_eq
  end;
  unfold Qcle, Qclt, Qcminus, Qcdiv, Qcinv, Qcplus, Qcmult, Qcopp in *;
  rewrite ?this_Q2Qc in *.

Ltac num_cases :=
  repeat match goal with x : num |- _ => destruct x end;
  simpl; try reflexivity; try (f_equal; to_Q; ring).

Section NumFacts2.

Local Open Scope num_scope.

Lemma num_add_0_l (x : num) : lit 0 + x = x.
Proof. unfold lit. num_cases. Qed.

Lemma num_add_0_r (x : num) : x + lit 0 = x.
Proof. unfold lit. num_cases. Qed.

Lemma num_add_comm (x y : num) : x + y = y + x.
Proof. num_cases. Qed.

Lemma num_add_assoc (x y z : num) : x + (y + z) = (x + y) + z.
Proof. num_cases. Qed.

Lemma num_mul_1_r (x : num) : x * Fin 1%Qc = x.
Proof.
  destruct x; simpl; try reflexivity.
  f_equal. to_Q. ring.
Qed.

End NumFacts2.

(** ** Reads and writes of arrays *)

Section ArrayFacts.

Local Open Scope num_scope.
Implicit Types (a : array) (i j : nat) (k : Z) (x y v : num).

Lemma length_assign a i x :
  length (assign a i x) = (length a `max` S i)%nat.
Proof.
  unfold assign. case_decide.
  - rewrite length_insert. lia.
  - rewrite !length_app, length_replicate. simpl. lia.
Qed.

Lemma lookup_assign_dense a i x j y :
  a !! j = Some (Some y) ->
  assign a i x !! j = Some (Some (if decide (i = j) then x else y)).
Proof.
  intros Hj. pose proof (lookup_lt_Some _ _ _ Hj) as Hlen.
  unfold assign. case_decide as Hi.
  - destruct (decide (i = j)) as [->|Hne].
    + by rewrite list_lookup_insert_eq.
    + by rewrite list_lookup_insert_ne.
  - rewrite lookup_app_l by done.
    rewrite decide_False by lia. done.
Qed.

Lemma get_dense a j y : a !! j = Some (Some y) -> get a j = y.
Proof. unfold get. by intros ->. Qed.

Lemma is_index_of_nat j : (Z.of_nat j < 4294967295)%Z -> is_index (Z.of_nat j) = true.
Proof. unfold is_index. intros. apply andb_true_iff. split; [apply Z.leb_le|apply Z.ltb_lt]; lia. Qed.

Lemma length_add_at a k v :
  length (add_at a k v)
  = if is_index k then (length a `max` S (Z.to_nat k))%nat else length a.
Proof. unfold add_at. destruct (is_index k); [apply length_assign | done]. Qed.

Lemma lookup_add_at a k v j y :
  (Z.of_nat j < 4294967295)%Z ->
  a !! j = Some (Some y) ->
  add_at a k v !! j
  = Some (Some (if decide (k = Z.of_nat j) then y + v else y)).
Proof.
  intros Hsmall Hj. unfold add_at.
  destruct (is_index k) eqn:Hk.
  - apply andb_true_iff in Hk as [Hk1%Z.leb_le Hk2%Z.ltb_lt].
    rewrite (lookup_assign_dense _ _ _ _ _ Hj).
    destruct (decide (k = Z.of_nat j)) as [->|Hne].
    + rewrite Nat2Z.id, decide_True by done. by rewrite (get_dense _ _ _ Hj).
    + rewrite decide_False by lia. done.
  - rewrite decide_False; [done|].
    intros ->. by rewrite is_index_of_nat in Hk.
Qed.

End ArrayFacts.

(** ** The cash-flow builder *)

Section BuilderFacts.

Local Open Scope num_scope.
Implicit Types (a : array) (j : nat) (x y v : num).

Lemma lookup_add_at_sum a (k : Z) v j y :
  (Z.of_nat j < 4294967295)%Z ->
  a !! j = Some (Some y) ->
  add_at a k v !! j
  = Some (Some (y + if decide (k = Z.of_nat j) then v else lit 0)).
Proof.
  intros Hs Hj. rewrite (lookup_add_at _ _ _ _ _ Hs Hj).
  case_decide; by rewrite ?num_add_0_r.
Qed.

Lemma lookup_entrada_loop n (m : Z) v a j y :
  (0 <= m)%Z ->
  (Z.of_nat j < 4294967295)%Z ->
  a !! j = Some (Some y) ->
  entrada_loop n m v a !! j
  = Some (Some (y + if decide (m <= Z.of_nat j < m + Z.of_nat n)%Z
                    then v else lit 0)).
Proof.
  revert m a y. induction n as [|n IH]; intros m a y Hm Hs Hj.
  - simpl. rewrite decide_False by lia. by rewrite num_add_0_r.
  - simpl entrada_loop.
    rewrite (IH (m + 1)%Z _ _ ltac:(lia) Hs (lookup_add_at _ m v _ _ Hs Hj)).
    do 2 f_equal.
    destruct (decide (m = Z.of_nat j)) as [->|Hne].
    + rewrite decide_False by lia. rewrite decide_True by lia.
      by rewrite num_add_0_r.
    + destruct (decide (m + 1 <= Z.of_nat j < m + 1 + Z.of_nat n)%Z).
      * by rewrite decide_True by lia.
      * by rewrite decide_False by lia.
Qed.

Lemma length_entrada_loop n (m : Z) v a :
  (0 <= m)%Z -> (m + Z.of_nat n <= Z.of_nat (length a))%Z ->
  (Z.of_nat (length a) < 4294967295)%Z ->
  length (entrada_loop n m v a) = length a.
Proof.
  revert m a. induction n as [|n IH]; intros m a Hm Hn Hs; [done|].
  simpl. assert (Hlen : length (add_at a m v) = length a).
  { rewrite length_add_at. destruct (is_index m); lia. }
  rewrite IH; rewrite ?Hlen; lia.
Qed.

Lemma lookup_Array_fill n x j :
  (j < n)%nat -> Array_fill n x !! j = Some (Some x).
Proof. intros. unfold Array_fill. by rewrite lookup_replicate_2. Qed.

Variable cfg : config.
Variable unit : Unit.
Variable catIdx : Z.

Lemma lookup_calcCashflowForUnit (m : nat) :
  (m <= 23)%nat ->
  calcCashflowForUnit cfg unit catIdx !! m
  = Some (Some (legs cfg unit catIdx m)).
Proof.
  intros Hm. unfold calcCashflowForUnit.
  assert (Hs : (Z.of_nat m < 4294967295)%Z) by lia.
  pose proof (lookup_Array_fill 24 (lit 0) m ltac:(lia)) as H0.
  set (base := applyDiscount cfg (valor unit) catIdx).
  pose proof (lookup_add_at_sum _ 0 ((payAtoPct cfg / lit 100) * base)
                _ _ Hs H0) as H1.
  pose proof (lookup_entrada_loop (Z.to_nat (entradaMonths cfg)) 1
                (((entradaPct cfg / lit 100) * base) / of_Z (entradaMonths cfg))
                _ _ _ ltac:(lia) Hs H1) as H2.
  unfold legs, leg_ato, leg_entrada, leg_inter, leg_chaves, basePrice.
  destruct (payInterPct cfg > lit 0).
  - rewrite (lookup_add_at_sum _ _ _ _ _ Hs
               (lookup_add_at_sum _ _ _ _ _ Hs H2)).
    rewrite num_add_0_l. repeat case_decide; try lia; reflexivity.
  - rewrite (lookup_add_at_sum _ _ _ _ _ Hs H2).
    rewrite num_add_0_l, (num_add_0_r (_ + _)).
    repeat case_decide; try lia; reflexivity.
Qed.

Lemma length_calcCashflowForUnit_in_range :
  (entradaMonths cfg <= 23)%Z ->
  (payInterPct cfg > lit 0) = false \/ (payInterMonth cfg <= 23)%Z ->
  length (calcCashflowForUnit cfg unit catIdx) = 24%nat.
Proof.
  intros He Hi. unfold calcCashflowForUnit.
  set (a1 := add_at (Array_fill 24 (lit 0)) 0 _).
  assert (H1 : length a1 = 24%nat) by (subst a1; by rewrite length_add_at).
  set (a2 := entrada_loop _ 1 _ a1).
  assert (H2 : length a2 = 24%nat).
  { subst a2. rewrite length_entrada_loop; rewrite ?H1; lia. }
  assert (H3 : forall (k : Z) v, (k <= 23)%Z -> length (add_at a2 k v) = 24%nat).
  { intros k v Hk. rewrite length_add_at, H2. destruct (is_index k); lia. }
  rewrite length_add_at.
  destruct (payInterPct cfg > lit 0).
  - destruct Hi as [?|Hi]; [done|]. rewrite (H3 _ _ Hi). done.
  - rewrite H2. done.
Qed.

End BuilderFacts.



Lemma array_eq_dense (a : array) (f : nat -> num) (n : nat) :
  length a = n ->
  (forall j, (j < n)%nat -> a !! j = Some (Some (f j))) ->
  a = dense (f <$> seq 0 n).
Proof.
  intros Hlen Hf. apply list_eq. intros j. unfold dense.
  rewrite !list_lookup_fmap.
  destruct (decide (j < n)%nat) as [Hj|Hj].
  - rewrite (Hf j Hj), lookup_seq_lt by done. done.
  - rewrite lookup_ge_None_2 by lia.
    rewrite lookup_seq_ge by lia. done.
Qed.

Lemma calcCashflowForUnit_in_range cfg unit catIdx :
  (entradaMonths cfg <= 23)%Z ->
  (payInterPct cfg > lit 0)%num = false \/ (payInterMonth cfg <= 23)%Z ->
  calcCashflowForUnit cfg unit catIdx
  = dense (legs cfg unit catIdx <$> seq 0 24).
Proof.
  intros He Hi. apply array_eq_dense.
  - by apply length_calcCashflowForUnit_in_range.
  - intros j Hj. apply lookup_calcCashflowForUnit. lia.
Qed.


(** ** Finite values *)

Section Finite.

Local Open Scope num_scope.



Lemma num_div_Fin (p q : Qc) : q <> 0%Qc -> Fin p / Fin q = Fin (p / q)%Qc.
Proof.
  intros Hq. simpl. destruct (Qc_eqb q 0) eqn:E; [|done].
  by apply Qc_eqb_eq in E.
Qed.

Lemma num_div_100 (p : Qc) : Fin p / lit 100 = Fin (p / Q2Qc 100)%Qc.
Proof. by apply num_div_Fin. Qed.


Lemma pow_nat_Fin (b : Qc) (n : nat) : pow_nat (Fin b) n = Fin (b ^ n)%Qc.
Proof.
  induction n as [|n IH]; [done|].
  simpl pow_nat. rewrite IH. simpl. f_equal. apply Qcmult_comm.
Qed.

Lemma Math_pow_Fin (b : Qc) (n : nat) :
  Math_pow (Fin b) (Z.of_nat n) = Fin (b ^ n)%Qc.
Proof.
  destruct n as [|n]; [done|].
  rewrite <- pow_nat_Fin.
  change (Math_pow (Fin b) (Z.of_nat (S n)))
    with (pow_nat (Fin b) (Pos.to_nat (Pos.of_succ_nat n))).
  by rewrite SuccNat2Pos.id_succ.
Qed.








End Finite.

(** ** Discount policy and escalation *)

Section Discount.

Local Open Scope num_scope.

Lemma applyDiscount_Fin cfg (q : Qc) (catIdx : Z) :
  applyDiscount cfg (Fin q) catIdx = Fin (discount_bands cfg q catIdx).
Proof.
  unfold applyDiscount, discount_bands.
  destruct (Z.ltb_spec catIdx (preLaunchMonths cfg)).
  - rewrite decide_True by done. by rewrite num_div_100.
  - rewrite decide_False by lia.
    destruct (Z.ltb_spec catIdx (preLaunchMonths cfg + launchMonths cfg)).
    + rewrite decide_True by lia. by rewrite num_div_100.
    + by rewrite decide_False by lia.
Qed.

(** C3. [applyDiscount] multiplies the base value by
    [1 - discountPre/100] when the phase index is below
    [preLaunchMonths], by [1 - discountLaunch/100] when it lies in
    [preLaunchMonths .. preLaunchMonths + launchMonths - 1], and returns
    it unchanged otherwise; on a finite base value this is the exact
    rational the specification's formula gives. With
    [preLaunchMonths = 2] and [launchMonths = 3], phase index 0 gets
    [discountPre], phase index 2 gets [discountLaunch] and phase index 5
    gets no discount. *)
Theorem applyDiscount_bands :
  (forall cfg (unitValue : num) (catIdx : Z),
     ((catIdx < preLaunchMonths cfg)%Z ->
        applyDiscount cfg unitValue catIdx
        = unitValue * (lit 1 - discountPre cfg / lit 100))
     /\ ((preLaunchMonths cfg <= catIdx
          < preLaunchMonths cfg + launchMonths cfg)%Z ->
        applyDiscount cfg unitValue catIdx
        = unitValue * (lit 1 - discountLaunch cfg / lit 100))
     /\ (~ (catIdx < preLaunchMonths cfg)%Z ->
         ~ (preLaunchMonths cfg <= catIdx
            < preLaunchMonths cfg + launchMonths cfg)%Z ->
        applyDiscount cfg unitValue catIdx = unitValue))
  /\ (forall cfg (baseValue : Qc) (phaseIndex : Z),
        applyDiscount cfg (Fin baseValue) phaseIndex
        = Fin (discount_bands cfg baseValue phaseIndex))
  /\ (forall cfg (unitValue : num),
        preLaunchMonths cfg = 2%Z ->
        applyDiscount cfg unitValue 0
        = unitValue * (lit 1 - discountPre cfg / lit 100))
  /\ (forall cfg (unitValue : num),
        preLaunchMonths cfg = 2%Z -> launchMonths cfg = 3%Z ->
        applyDiscount cfg unitValue 2
        = unitValue * (lit 1 - discountLaunch cfg / lit 100)
        /\ applyDiscount cfg unitValue 5 = unitValue).
Proof.
  repeat split; intros; try apply applyDiscount_Fin; unfold applyDiscount;
    repeat match goal with
    | |- context [Z.ltb ?x ?y] => destruct (Z.ltb_spec x y)
    end; try reflexivity; lia.
Qed.

Lemma applyDiscount_bands_witness :
  applyDiscount state_config (lit 300000) 0
  = lit 300000 * (lit 1 - discountPre state_config / lit 100).
Proof.
  apply (proj1 (proj1 applyDiscount_bands state_config (lit 300000) 0%Z)).
  simpl. lia.
Defined.

Lemma updateValue_escalate (v r : Qc) (m : nat) :
  Fin v * Math_pow (lit 1 + Fin r) (Z.of_nat m) = Fin (escalate v m r).
Proof.
  change (lit 1 + Fin r) with (Fin (1 + r)%Qc).
  by rewrite Math_pow_Fin.
Qed.

(** C9. Both escalation functions compute
    [initialValue * (1 + rate) ^ monthIndex] exactly, [updateValueByINCC]
    with the [incc] rate and [updateValueByIPCA] with [ipca]: one more
    month multiplies the value once more by [1 + rate], and escalating
    at month index 0 returns the value itself, for every rate. *)
Theorem escalation_compound :
  (forall cfg (v : Qc) (m : nat),
     updateValueByINCC cfg (Fin v) (Z.of_nat m) = Fin (escalate v m (incc cfg))
     /\ updateValueByIPCA cfg (Fin v) (Z.of_nat m) = Fin (escalate v m (ipca cfg)))
  /\ (forall (v r : Qc) (m : nat),
        escalate v (S m) r = (escalate v m r * (1 + r))%Qc)
  /\ (forall cfg (v : num),
        updateValueByINCC cfg v 0 = v /\ updateValueByIPCA cfg v 0 = v)
  /\ (forall v r : Qc, escalate v 0 r = v).
Proof.
  repeat split; intros.
  - apply updateValue_escalate.
  - apply updateValue_escalate.
  - unfold escalate. simpl. ring.
  - apply num_mul_1_r.
  - apply num_mul_1_r.
  - unfold escalate. simpl. ring.
Qed.

End Discount.

(** ** The legs inside the 24 months *)

Section Months.

Local Open Scope num_scope.









End Months.

(** ** Degenerate month fields *)

Section Degenerate.

Local Open Scope num_scope.






(** C4, at the input on which the code leaves the 24-month vector its
    own comment announces: with [entradaMonths = 24] the loop writes
    month 24, the array grows to 25 entries and the new entry is
    [undefined + entradaMensal = NaN]. *)
Theorem calcCashflowForUnit_entrada_24 :
  let flow := calcCashflowForUnit config_entrada_24 apto_101 0 in
  length flow = 25%nat /\ flow !! 24%nat = Some (Some NaN).
Proof. split; vm_compute; reflexivity. Qed.

(** C1, at the inputs on which a leg leaves the 24 months. With
    [entradaMonths = 24] the claim puts the instalment
    [81000 / 24 = 3375] at month 24, and with [payInterPct = 20] and
    [payInterMonth = 26] it puts the intermediate payment
    [54000 * (1 + incc)^26] at month 26; the vector built has [NaN] at
    both places, because the slot written is past the 24 that were
    filled with 0. *)
Theorem calcCashflowForUnit_leg_past_23 :
  (instalment_at config_entrada_24 apto_101 0 24 = Q2Qc 3375
   /\ calcCashflowForUnit config_entrada_24 apto_101 0 !! 24%nat
      = Some (Some NaN))
  /\ (inter_at config_inter_26 apto_101 0 26
      = escalate (Q2Qc 54000) 26 (Q2Qc 0.0045)
      /\ calcCashflowForUnit config_inter_26 apto_101 0 !! 26%nat
         = Some (Some NaN)).
Proof.
  repeat split; try (vm_compute; reflexivity); by apply Qc_is_canon.
Qed.

(** C5, at a degenerate input. For [payInterPct = 20] and
    [payInterMonth = 26] the builder raises nothing and clamps nothing:
    it returns normally, and what it returns has 27 slots, holes at
    months 24 and 25 and [NaN] at month 26, which is no vector of 24
    finite entries. *)
Lemma calcCashflowForUnit_unguarded :
  degenerate config_inter_26
  /\ (let flow := calcCashflowForUnit config_inter_26 apto_101 0 in
      length flow = 27%nat
      /\ flow !! 24%nat = Some None /\ flow !! 25%nat = Some None
      /\ flow !! 26%nat = Some (Some NaN)
      /\ ~ well_formed_vector flow).
Proof.
  split; [right; left; simpl; lia|].
  repeat split; try (vm_compute; reflexivity).
  intros [Hlen _]. vm_compute in Hlen. discriminate.
Qed.



End Degenerate.

(** ** Aggregation *)

Section Aggregation.

Local Open Scope num_scope.
Implicit Types (xs ys zs pre : list num) (vs : list (list num)).











End Aggregation.

(** ** Payback *)

Section Payback.

Local Open Scope num_scope.
Implicit Types (xs : list num).

Lemma fold_left_num_add xs :
  fold_left num_add xs (lit 0) = foldr num_add (lit 0) xs.
Proof.
  apply fold_symmetric.
  - apply num_add_assoc.
  - intros y. apply num_add_comm.
Qed.

Lemma get_dense_lookup xs (i : nat) x : xs !! i = Some x -> get (dense xs) i = x.
Proof.
  intros H. apply get_dense. unfold dense. by rewrite list_lookup_fmap, H.
Qed.

Lemma calcPayback_loop_spec xs (n i : nat) :
  (i + n = length xs)%nat ->
  (forall j, (j < i)%nat -> (cumulative xs j >= lit 0) = false) ->
  let r := calcPayback_loop (dense xs) n i (fold_left num_add (take i xs) (lit 0)) in
  (r <= length xs)%nat
  /\ ((r < length xs)%nat -> (cumulative xs r >= lit 0) = true)
  /\ (forall j, (j < r)%nat -> (cumulative xs j >= lit 0) = false).
Proof.
  revert i. induction n as [|n IH]; intros i Hlen Hbelow.
  - simpl. unfold dense. rewrite length_fmap.
    split; [lia|]. split; [lia|]. intros j Hj. apply Hbelow. lia.
  - destruct (lookup_lt_is_Some_2 xs i) as [x Hx]; [lia|].
    assert (Hacc : fold_left num_add (take i xs) (lit 0) + get (dense xs) i
                   = cumulative xs i).
    { unfold cumulative. rewrite <- fold_left_num_add.
      rewrite (take_S_r _ _ _ Hx), fold_left_app. simpl.
      by rewrite (get_dense_lookup _ _ _ Hx). }
    cbn [calcPayback_loop]. rewrite Hacc.
    destruct (cumulative xs i >= lit 0) eqn:Hge.
    + split; [lia|]. split; [done|]. done.
    + assert (Hacc' : cumulative xs i = fold_left num_add (take (S i) xs) (lit 0)).
      { unfold cumulative. by rewrite fold_left_num_add. }
      rewrite Hacc'. apply IH; [lia|].
      intros j Hj. destruct (decide (j = i)) as [->|]; [done|].
      apply Hbelow. lia.
Qed.

End Payback.

(** ** Return on investment *)

Section ROI.

Local Open Scope num_scope.
Implicit Types (xs : list num) (qs : list Qc).

Lemma reduce_from_add_dense xs (idx : nat) (a : num) :
  reduce_from (fun a b _ => a + b) (dense xs) idx a = fold_left num_add xs a.
Proof.
  revert idx a. induction xs as [|x xs IH]; intros idx a; [done|].
  simpl. apply IH.
Qed.



End ROI.

(** ** Inflows only *)

Section Inflows.

Local Open Scope num_scope.
Implicit Types (xs ys zs : list num).










End Inflows.

(** * Further properties of the engine *)

(** ** Total revenue of a unit *)

Section UnitTotal.

Local Open Scope num_scope.
Implicit Types (xs ys : list num).

Lemma receitaTotal_dense xs : receitaTotal (dense xs) = sum_list xs.
Proof.
  unfold receitaTotal, reduce, sum_list.
  by rewrite reduce_from_add_dense, fold_left_num_add.
Qed.

Lemma sum_list_zeros {A} (l : list A) : sum_list ((fun _ => lit 0) <$> l) = lit 0.
Proof.
  unfold sum_list. induction l as [|a l IH]; [done|].
  change (lit 0 + foldr num_add (lit 0) ((fun _ => lit 0) <$> l) = lit 0).
  rewrite IH. apply num_add_0_l.
Qed.

Lemma sum_list_pointwise {A} (f g : A -> num) (l : list A) :
  sum_list ((fun a => f a + g a) <$> l)
  = sum_list (f <$> l) + sum_list (g <$> l).
Proof.
  unfold sum_list. induction l as [|a l IH].
  - change (lit 0 = lit 0 + lit 0). by rewrite num_add_0_l.
  - change (f a + g a + foldr num_add (lit 0) ((fun a => f a + g a) <$> l)
            = f a + foldr num_add (lit 0) (f <$> l)
              + (g a + foldr num_add (lit 0) (g <$> l))).
    rewrite IH.
    generalize (f a) (g a) (foldr num_add (lit 0) (f <$> l))
               (foldr num_add (lit 0) (g <$> l)).
    intros x y z w.
    rewrite <- !num_add_assoc. f_equal.
    rewrite !num_add_assoc. f_equal. apply num_add_comm.
Qed.

(** A leg that lands on one month [k] only. *)
Lemma sum_list_single (P : nat -> Prop) `{!forall m, Decision (P m)}
    (k : nat) (c : num) (s n : nat) :
  (forall m, P m <-> m = k) ->
  sum_list ((fun m => if decide (P m) then c else lit 0) <$> seq s n)
  = if decide (s <= k < s + n)%nat then c else lit 0.
Proof.
  intros HP. revert s. induction n as [|n IH]; intros s.
  - cbn. by rewrite decide_False by lia.
  - cbn [seq fmap list_fmap]. unfold sum_list in *. cbn [foldr].
    rewrite IH. destruct (decide (P s)) as [Hs%HP|Hs].
    + subst s. rewrite decide_False by lia. rewrite decide_True by lia.
      apply num_add_0_r.
    + assert (s <> k) by (intros ->; by apply Hs, HP).
      rewrite num_add_0_l.
      destruct (decide (S s <= k < S s + n)%nat).
      * by rewrite decide_True by lia.
      * by rewrite decide_False by lia.
Qed.

Lemma sum_legs cfg unit catIdx :
  sum_list (legs cfg unit catIdx <$> seq 0 24)
  = sum_list (leg_ato cfg unit catIdx <$> seq 0 24)
    + sum_list (leg_entrada cfg unit catIdx <$> seq 0 24)
    + sum_list (leg_inter cfg unit catIdx <$> seq 0 24)
    + sum_list (leg_chaves cfg unit catIdx <$> seq 0 24).
Proof.
  unfold legs.
  rewrite (sum_list_pointwise
             (fun m => leg_ato cfg unit catIdx m + leg_entrada cfg unit catIdx m
                       + leg_inter cfg unit catIdx m)).
  rewrite (sum_list_pointwise
             (fun m => leg_ato cfg unit catIdx m + leg_entrada cfg unit catIdx m)).
  by rewrite (sum_list_pointwise (leg_ato cfg unit catIdx)).
Qed.

Lemma sum_leg_ato cfg unit catIdx :
  sum_list (leg_ato cfg unit catIdx <$> seq 0 24)
  = (payAtoPct cfg / lit 100) * basePrice cfg unit catIdx.
Proof.
  unfold leg_ato. rewrite (sum_list_single _ 0%nat); [|done].
  by rewrite decide_True by lia.
Qed.

Lemma sum_leg_chaves cfg unit catIdx :
  sum_list (leg_chaves cfg unit catIdx <$> seq 0 24)
  = chaves_total cfg unit catIdx.
Proof.
  unfold leg_chaves. rewrite (sum_list_single _ 23%nat); [|done].
  by rewrite decide_True by lia.
Qed.

Lemma sum_leg_inter cfg unit catIdx :
  (payInterPct cfg > lit 0) = false \/ (0 <= payInterMonth cfg <= 23)%Z ->
  sum_list (leg_inter cfg unit catIdx <$> seq 0 24)
  = inter_total cfg unit catIdx.
Proof.
  intros Hi. unfold leg_inter, inter_total.
  destruct (payInterPct cfg > lit 0); [|apply sum_list_zeros].
  destruct Hi as [?|Hi]; [done|].
  rewrite (sum_list_single _ (Z.to_nat (payInterMonth cfg))); [|intros m; lia].
  by rewrite decide_True by lia.
Qed.

Lemma sum_leg_entrada_none cfg unit catIdx :
  (entradaMonths cfg <= 0)%Z ->
  sum_list (leg_entrada cfg unit catIdx <$> seq 0 24) = lit 0.
Proof.
  intros He. unfold leg_entrada.
  rewrite (list_fmap_ext _ (fun _ => lit 0) (seq 0 24)); [apply sum_list_zeros|].
  intros i m _. by rewrite decide_False by lia.
Qed.

(** X2. With [entradaMonths] at 0 or below the instalment loop never
    runs: as long as the intermediate payment is absent or due at a
    month of [0..22], the entries of the vector add up to the other
    three legs only, taken in that order, and the entrada share of the
    price is in no month. (Month 23 is left out: there the intermediate
    payment is added to the delivery payment before the total is
    taken.) *)
Theorem receitaTotal_unit_no_window cfg unit catIdx :
  (entradaMonths cfg <= 0)%Z ->
  (payInterPct cfg > lit 0) = false \/ (0 <= payInterMonth cfg <= 22)%Z ->
  receitaTotal (calcCashflowForUnit cfg unit catIdx)
  = unit_total_without_entrada cfg unit catIdx.
Proof.
  intros He Hi.
  rewrite calcCashflowForUnit_in_range; [|lia|destruct Hi; [by left|right; lia]].
  rewrite receitaTotal_dense, sum_legs.
  rewrite sum_leg_ato, sum_leg_entrada_none, sum_leg_inter, sum_leg_chaves;
    [|destruct Hi; [by left|right; lia]|done].
  unfold unit_total_without_entrada. by rewrite num_add_0_r.
Qed.

Lemma receitaTotal_unit_no_window_witness :
  receitaTotal (calcCashflowForUnit config_entrada_0 apto_101 0)
  = unit_total_without_entrada config_entrada_0 apto_101 0.
Proof.
  apply (receitaTotal_unit_no_window config_entrada_0 apto_101 0).
  - simpl. lia.
  - right. simpl. lia.
Defined.

End UnitTotal.

(** ** The rates the solver can reach *)

(** Like [to_Q], through nested operations. *)
Ltac to_Q_deep :=
  repeat match goal with
  | H : @eq Qc _ _ |- _ => apply Qc_eqQ in H
  | H : Qc_ltb _ _ = true |- _ => apply Qc_ltb_lt in H
  | H : Qc_ltb _ _ = false |- _ => apply Qc_ltb_ge in H
  | H : Qc_leb _ _ = true |- _ => apply Qc_leb_le in H
  | H : Qc_leb _ _ = false |- _ => apply Qc_leb_gt in H
  | |- @eq Qc _ _ => apply Qc_eqQ
  | |- Qc_ltb _ _ = true => apply Qc_ltb_lt
  | |- Qc_ltb _ _ = false => apply Qc_ltb_ge
  | |- Qc_leb _ _ = true => apply Qc_leb_le
  | |- Qc_leb _ _ = false => apply Qc_leb_gt
  end;
  unfold Qcle, Qclt, Qcminus, Qcdiv, Qcinv, Qcplus, Qcmult, Qcopp, Q2Qc in *;
  cbn [this] in *;
  repeat rewrite Qred_correct in *.

Section Grid.

Local Open Scope num_scope.

Lemma pct_rate_start : lit 0.01 = pct_rate 1.
Proof. unfold lit, pct_rate. f_equal; by apply Qc_is_canon. Qed.


Lemma body_down (z : Z) :
  (-99 <= z)%Z ->
  Math_max (pct_rate z + lit (-0.01)) (lit (-0.99))
  = pct_rate (Z.max (z - 1) (-99)).
Proof.
  intros Hz.
  assert (Hq : (-99 <= inject_Z z)%Q) by (rewrite Zle_Qle in Hz; exact Hz).
  unfold pct_rate, lit. cbn [num_add Math_max num_lt].
  destruct (Qc_ltb _ _) eqn:E.
  - assert (z = -99)%Z as ->.
    { destruct (decide (z = -99)%Z) as [|Hne]; [done|exfalso].
      assert (Hz' : (-98 <= z)%Z) by lia.
      assert (Hq' : (-98 <= inject_Z z)%Q) by (rewrite Zle_Qle in Hz'; exact Hz').
      to_Q_deep. lra. }
    f_equal; by apply Qc_is_canon.
  - rewrite Z.max_l.
    + f_equal. to_Q_deep. unfold Z.sub.
      rewrite inject_Z_plus, inject_Z_opp. change (inject_Z 1) with 1%Q. lra.
    + destruct (decide (z = -99)%Z) as [->|Hne]; [exfalso|lia].
      revert E. by vm_compute.
Qed.


Lemma calcTIR_loop_down (a : array) (n : nat) (z : Z) :
  (-99 <= z)%Z ->
  (forall z', (-99 <= z' <= z)%Z ->
     (Math_abs (npv_of a (pct_rate z')) < tolerance) = false
     /\ (npv_of a (pct_rate z') > lit 0) = false) ->
  calcTIR_loop a n (pct_rate z) = pct_rate (Z.max (z - Z.of_nat n) (-99)).
Proof.
  revert z. induction n as [|n IH]; intros z Hz Hdown.
  - by replace (Z.max (z - Z.of_nat 0) (-99)) with z by lia.
  - cbn [calcTIR_loop].
    destruct (Hdown z ltac:(lia)) as [-> ->].
    rewrite body_down by lia. rewrite IH.
    + by replace (Z.max (Z.max (z - 1) (-99) - Z.of_nat n) (-99))
        with (Z.max (z - Z.of_nat (S n)) (-99)) by lia.
    + lia.
    + intros z' Hz'. apply Hdown. lia.
Qed.

End Grid.

(** ** Month fields out of range *)

Section Poison.

Local Open Scope num_scope.
Implicit Types (a flow allFlows : array) (j : nat) (k : Z) (v x : num).

Lemma num_add_NaN_r x : x + NaN = NaN.
Proof. by destruct x. Qed.
















(** What the summary functions make of a [NaN]. *)
Lemma reduce_add_from_NaN a (idx : nat) :
  reduce_from (fun x y (_ : nat) => x + y) a idx NaN = NaN.
Proof.
  revert idx. induction a as [|[v|] a IH]; intros idx; cbn [reduce_from]; auto.
Qed.

Lemma receitaTotal_NaN a : has_NaN a -> receitaTotal a = NaN.
Proof.
  intros [j Hj]. unfold receitaTotal, reduce.
  generalize 0%nat (lit 0). revert j Hj.
  induction a as [|c a IH]; intros j Hj idx acc; [done|].
  destruct j as [|j].
  - simpl in Hj. injection Hj as ->. cbn [reduce_from].
    rewrite num_add_NaN_r. apply reduce_add_from_NaN.
  - simpl in Hj. destruct c as [v|]; cbn [reduce_from]; by apply (IH j).
Qed.

Lemma min2_NaN_acc (args : list num) : fold_left min2 args NaN = NaN.
Proof. induction args as [|x args IH]; [done|]. by cbn [fold_left min2]. Qed.

Lemma Math_min_NaN a : has_NaN a -> Math_min (spread a) = NaN.
Proof.
  intros [j Hj]. unfold Math_min. generalize PInf. revert j Hj.
  induction a as [|c a IH]; intros j Hj acc; [done|].
  destruct j as [|j].
  - simpl in Hj. injection Hj as ->. cbn [spread fmap list_fmap fold_left].
    replace (min2 acc NaN) with NaN by (by destruct acc).
    apply min2_NaN_acc.
  - simpl in Hj. cbn [spread fmap list_fmap fold_left]. by apply (IH j).
Qed.

Lemma calcROI_NaN a : has_NaN a -> calcROI a = Str "NaN".
Proof.
  intros Ha. unfold calcROI. rewrite (Math_min_NaN a Ha).
  cbn [num_neg]. change (NaN <= lit 0) with false. cbn iota.
  replace (_ / NaN) with NaN; [done|].
  by destruct (reduce _ a (lit 0)).
Qed.

Lemma reduce_npv_from_NaN a rate (idx : nat) :
  reduce_from (fun acc v i => acc + v / Math_pow (lit 1 + rate) (Z.of_nat i))
    a idx NaN = NaN.
Proof.
  revert idx. induction a as [|[v|] a IH]; intros idx; cbn [reduce_from]; auto.
Qed.

Lemma npv_of_NaN a rate : has_NaN a -> npv_of a rate = NaN.
Proof.
  intros [j Hj]. unfold npv_of, reduce.
  generalize 0%nat (lit 0). revert j Hj.
  induction a as [|c a IH]; intros j Hj idx acc; [done|].
  destruct j as [|j].
  - simpl in Hj. injection Hj as ->. cbn [reduce_from].
    replace (NaN / _) with NaN by done. rewrite num_add_NaN_r.
    apply reduce_npv_from_NaN.
  - simpl in Hj. destruct c as [v|]; cbn [reduce_from]; by apply (IH j).
Qed.

Lemma calcTIR_NaN a : has_NaN a -> calcTIR a = lit (-0.99).
Proof.
  intros Ha. unfold calcTIR. rewrite pct_rate_start.
  rewrite calcTIR_loop_down; [| lia |].
  - unfold maxIter, pct_rate, lit. f_equal; by apply Qc_is_canon.
  - intros z' _. by rewrite (npv_of_NaN _ _ Ha).
Qed.

(** X6. One [NaN] among the flows takes over the summary: the total
    revenue is [NaN], [calcROI] returns the string [NaN], and [calcTIR]
    walks down from 0.01 to the floor and returns -0.99. *)
Theorem summary_of_NaN a :
  has_NaN a ->
  receitaTotal a = NaN /\ calcROI a = Str "NaN" /\ calcTIR a = lit (-0.99).
Proof.
  intros Ha. split; [|split].
  - by apply receitaTotal_NaN.
  - by apply calcROI_NaN.
  - by apply calcTIR_NaN.
Qed.

Lemma summary_of_NaN_witness :
  receitaTotal (dense [lit 10; NaN; lit 5]) = NaN
  /\ calcROI (dense [lit 10; NaN; lit 5]) = Str "NaN"
  /\ calcTIR (dense [lit 10; NaN; lit 5]) = lit (-0.99).
Proof.
  apply (summary_of_NaN (dense [lit 10; NaN; lit 5])).
  by exists 1%nat.
Defined.



End Poison.

(** ** Where the solver ends *)

Section SolverOutcomes.

Local Open Scope num_scope.
Implicit Types (qs : list Qc) (b r : Qc).

Lemma Qcpower_pos_strict b (n : nat) : (0 < b)%Qc -> (0 < b ^ n)%Qc.
Proof.
  intros Hb. induction n as [|n IH]; [done|].
  cbn [Qcpower]. to_Q. nra.
Qed.

Lemma Qcpower_le_mono b b' (n : nat) :
  (0 < b)%Qc -> (b <= b')%Qc -> (b ^ n <= b' ^ n)%Qc.
Proof.
  intros Hb Hbb. induction n as [|n IH]; [apply Qcle_refl|].
  pose proof (Qcpower_pos_strict b n Hb).
  cbn [Qcpower]. to_Q. nra.
Qed.

Lemma Qcinv_le_contravar (x y : Qc) :
  (0 < x)%Qc -> (x <= y)%Qc -> (/ y <= / x)%Qc.
Proof.
  intros Hx Hxy. to_Q.
  assert (Hy : (0 < y)%Q) by lra.
  pose proof (Qinv_lt_0_compat _ Hx) as Hix.
  pose proof (Qinv_lt_0_compat _ Hy) as Hiy.
  assert (Ex : (x * / x == 1)%Q) by (apply Qmult_inv_r; lra).
  assert (Ey : (y * / y == 1)%Q) by (apply Qmult_inv_r; lra).
  nra.
Qed.

Lemma reduce_npv_Fin qs r (idx : nat) (acc : Qc) :
  (0 < 1 + r)%Qc ->
  reduce_from
    (fun acc v i => acc + v / Math_pow (lit 1 + Fin r) (Z.of_nat i))
    (dense (Fin <$> qs)) idx (Fin acc)
  = Fin (acc + npv_from (1 + r) idx qs)%Qc.
Proof.
  intros Hb. revert idx acc. induction qs as [|q qs IH]; intros idx acc.
  - cbn [fmap list_fmap dense reduce_from npv_from]. f_equal. ring.
  - cbn [fmap list_fmap dense reduce_from npv_from].
    change (lit 1 + Fin r) with (Fin (1 + r)%Qc).
    rewrite Math_pow_Fin, num_div_Fin.
    + cbn [num_add]. change (Some <$> (Fin <$> qs)) with (dense (Fin <$> qs)).
      change (Fin (1 + r)%Qc) with (lit 1 + Fin r).
      rewrite IH. f_equal. ring.
    + apply not_eq_sym, Qclt_not_eq. by apply Qcpower_pos_strict.
Qed.

Lemma npv_of_Fin qs r :
  (0 < 1 + r)%Qc ->
  npv_of (dense (Fin <$> qs)) (Fin r) = Fin (npv_from (1 + r) 0 qs).
Proof.
  intros Hb. unfold npv_of, reduce.
  change (lit 0) with (Fin 0%Qc). rewrite reduce_npv_Fin by done.
  f_equal. ring.
Qed.

Lemma npv_from_zeros b (k n : nat) : npv_from b k (replicate n 0%Qc) = 0%Qc.
Proof.
  revert k. induction n as [|n IH]; intros k; [done|].
  cbn [replicate npv_from]. rewrite IH. unfold Qcdiv. ring.
Qed.

Lemma npv_from_mono b b' (k : nat) qs :
  (0 < b)%Qc -> (b <= b')%Qc -> Forall (fun q => (0 <= q)%Qc) qs ->
  (npv_from b' k qs <= npv_from b k qs)%Qc.
Proof.
  intros Hb Hbb Hqs. revert k. induction Hqs as [|q qs Hq _ IH]; intros k.
  - apply Qcle_refl.
  - cbn [npv_from]. apply Qcplus_le_compat; [|apply IH].
    unfold Qcdiv.
    pose proof (Qcinv_le_contravar _ _ (Qcpower_pos_strict b k Hb)
                  (Qcpower_le_mono b b' k Hb Hbb)) as Hinv.
    to_Q. nra.
Qed.

Lemma npv_from_opp b (k : nat) qs :
  npv_from b k (Qcopp <$> qs) = (- npv_from b k qs)%Qc.
Proof.
  revert k. induction qs as [|q qs IH]; intros k.
  - cbn. ring.
  - cbn [fmap list_fmap npv_from]. fold (@fmap list _ Qc Qc).
    change (list_fmap Qc Qc Qcopp qs) with (Qcopp <$> qs).
    rewrite IH. unfold Qcdiv. ring.
Qed.

Lemma pct_rate_base (z : Z) :
  pct_rate z = Fin (Q2Qc (inject_Z z * (1 # 100))).
Proof. done. Qed.

Lemma calcTIR_loop_stop (a : array) (n : nat) (rate : num) :
  (Math_abs (npv_of a rate) < tolerance) = true ->
  calcTIR_loop a n rate = rate.
Proof.
  intros H. destruct n as [|n]; [done|].
  cbn [calcTIR_loop]. by rewrite H.
Qed.

(** X8. On flows that are all zero, and on no flows at all, [calcTIR]
    stops at once and returns its starting guess 0.01. *)
Theorem calcTIR_zero_flows (n : nat) :
  calcTIR (dense (replicate n (lit 0))) = lit 0.01.
Proof.
  unfold calcTIR.
  change (replicate n (lit 0)) with (replicate n (Fin 0%Qc)).
  rewrite <- (fmap_replicate Fin n 0%Qc).
  apply calcTIR_loop_stop.
  unfold lit at 1. rewrite npv_of_Fin by done.
  by rewrite npv_from_zeros.
Qed.



(** X10. On flows that are never positive and already below minus the
    tolerance when discounted at the starting rate 0.01, [calcTIR]
    steps down to the floor and returns -0.99. *)
Theorem calcTIR_outflows qs :
  Forall (fun q => (q <= 0)%Qc) qs ->
  (npv_of (dense (Fin <$> qs)) (lit 0.01) <= num_neg tolerance) = true ->
  calcTIR (dense (Fin <$> qs)) = lit (-0.99).
Proof.
  intros Hqs Hfirst.
  unfold lit at 1 in Hfirst. rewrite npv_of_Fin in Hfirst by done.
  apply Qc_leb_le in Hfirst.
  assert (Hneg : Forall (fun q => (0 <= q)%Qc) (Qcopp <$> qs)).
  { apply Forall_fmap. eapply Forall_impl; [exact Hqs|].
    intros q Hq. simpl. to_Q. lra. }
  unfold calcTIR. rewrite pct_rate_start.
  rewrite calcTIR_loop_down; [| lia |].
  - unfold maxIter, pct_rate, lit. f_equal; by apply Qc_is_canon.
  - intros z Hz. rewrite pct_rate_base.
    assert (Hlo : (-99 <= inject_Z z)%Q)
      by (assert (H1 : (-99 <= z)%Z) by lia; rewrite Zle_Qle in H1; exact H1).
    assert (Hhi : (inject_Z z <= 1)%Q)
      by (assert (H1 : (z <= 1)%Z) by lia; rewrite Zle_Qle in H1; exact H1).
    assert (Hb : (0 < 1 + Q2Qc (inject_Z z * (1 # 100)))%Qc)
      by (to_Q_deep; lra).
    assert (Hbb : (1 + Q2Qc (inject_Z z * (1 # 100)) <= 1 + Q2Qc 0.01)%Qc)
      by (to_Q_deep; lra).
    rewrite npv_of_Fin by done.
    pose proof (npv_from_mono _ _ 0 _ Hb Hbb Hneg) as Hmono.
    rewrite !npv_from_opp in Hmono.
    set (p := npv_from (1 + Q2Qc (inject_Z z * (1 # 100))) 0 qs) in *.
    set (p1 := npv_from (1 + Q2Qc 0.01) 0 qs) in *.
    assert (Hp : (p <= - Q2Qc 0.000001)%Qc).
    { apply Qcle_trans with p1; [|done].
      clearbody p p1. clear -Hmono. to_Q. lra. }
    assert (Hp0 : (p < 0)%Qc).
    { apply Qcle_lt_trans with (- Q2Qc 0.000001)%Qc; done. }
    cbn [Math_abs]. rewrite (proj2 (Qc_ltb_lt _ _) Hp0).
    split.
    + apply Qc_ltb_ge. clearbody p. clear -Hp. to_Q. lra.
    + apply Qc_ltb_ge. by apply Qclt_le_weak.
Qed.

Lemma calcTIR_outflows_witness :
  calcTIR (dense (Fin <$> [Q2Qc (-1000); Q2Qc 0; Q2Qc (-50)])) = lit (-0.99).
Proof.
  apply (calcTIR_outflows [Q2Qc (-1000); Q2Qc 0; Q2Qc (-50)]).
  - repeat constructor; by apply Qc_leb_le.
  - by vm_compute.
Defined.

End SolverOutcomes.

(** ** Prices by phase *)

Section Prices.

Local Open Scope num_scope.

Lemma discount_bands_between cfg (q : Qc) (catIdx : Z) :
  (0 <= discountPre cfg)%Qc -> (discountPre cfg <= Q2Qc 100)%Qc ->
  (0 <= discountLaunch cfg)%Qc -> (discountLaunch cfg <= Q2Qc 100)%Qc ->
  (0 <= q)%Qc ->
  (0 <= discount_bands cfg q catIdx)%Qc /\ (discount_bands cfg q catIdx <= q)%Qc.
Proof.
  intros Hp0 Hp1 Hl0 Hl1 Hq. unfold discount_bands.
  repeat case_decide; split; try done; try apply Qcle_refl;
    to_Q_deep; change (/ 100)%Q with (1 # 100)%Q; nra.
Qed.

(** X11. With both discounts between 0 and 100, the price
    [applyDiscount] gives a unit of base value not negative (the
    "Valor Fase" of its table row, the base price of its cash flow) is a
    finite number between 0 and the base value. *)
Theorem applyDiscount_between cfg (q : Qc) (catIdx : Z) :
  (0 <= discountPre cfg)%Qc -> (discountPre cfg <= Q2Qc 100)%Qc ->
  (0 <= discountLaunch cfg)%Qc -> (discountLaunch cfg <= Q2Qc 100)%Qc ->
  (0 <= q)%Qc ->
  exists p : Qc,
    applyDiscount cfg (Fin q) catIdx = Fin p /\ (0 <= p)%Qc /\ (p <= q)%Qc.
Proof.
  intros Hp0 Hp1 Hl0 Hl1 Hq.
  exists (discount_bands cfg q catIdx).
  split; [apply applyDiscount_Fin|].
  by apply discount_bands_between.
Qed.

Lemma applyDiscount_between_witness :
  exists p : Qc,
    applyDiscount state_config (Fin (Q2Qc 500000)) 2 = Fin p
    /\ (0 <= p)%Qc /\ (p <= Q2Qc 500000)%Qc.
Proof.
  apply (applyDiscount_between state_config (Q2Qc 500000) 2);
    by apply Qc_leb_le.
Defined.

(** X12. When the launch discount is not negative and the pre-launch
    discount is at least as large, a later position in the list never
    gets a lower price for the same base value. *)
Theorem applyDiscount_monotone cfg (q : Qc) (i j : Z) :
  (0 <= discountLaunch cfg)%Qc ->
  (discountLaunch cfg <= discountPre cfg)%Qc ->
  (0 <= q)%Qc ->
  (i <= j)%Z ->
  (applyDiscount cfg (Fin q) i <= applyDiscount cfg (Fin q) j) = true.
Proof.
  intros Hl Hpl Hq Hij. rewrite !applyDiscount_Fin.
  change (Qc_leb (discount_bands cfg q i) (discount_bands cfg q j) = true).
  apply Qc_leb_le. unfold discount_bands.
  repeat case_decide; try lia; try apply Qcle_refl;
    to_Q_deep; change (/ 100)%Q with (1 # 100)%Q; nra.
Qed.

Lemma applyDiscount_monotone_witness :
  (applyDiscount state_config (Fin (Q2Qc 300000)) 1
   <= applyDiscount state_config (Fin (Q2Qc 300000)) 4) = true.
Proof.
  apply (applyDiscount_monotone state_config (Q2Qc 300000) 1 4);
    try (by apply Qc_leb_le). lia.
Defined.

End Prices.

(** ** Payback inside the horizon *)

Section PaybackPrefix.

Local Open Scope num_scope.
Implicit Types (xs ys : list num).

Lemma calcPayback_spec xs :
  (calcPayback (dense xs) <= length xs)%nat
  /\ ((calcPayback (dense xs) < length xs)%nat ->
      (cumulative xs (calcPayback (dense xs)) >= lit 0) = true)
  /\ (forall j, (j < calcPayback (dense xs))%nat ->
        (cumulative xs j >= lit 0) = false).
Proof.
  pose proof (calcPayback_loop_spec xs (length xs) 0 ltac:(lia) ltac:(lia)) as H.
  unfold calcPayback, dense. rewrite length_fmap. exact H.
Qed.

Lemma cumulative_app xs ys (j : nat) :
  (j < length xs)%nat -> cumulative (xs ++ ys) j = cumulative xs j.
Proof. intros Hj. unfold cumulative. by rewrite take_app_le by lia. Qed.

(** X13. A payback month reached inside the flows is not changed by
    the months that come after: appending further flows leaves the
    result of [calcPayback] as it is. *)
Theorem calcPayback_prefix xs ys :
  (calcPayback (dense xs) < length xs)%nat ->
  calcPayback (dense (xs ++ ys)) = calcPayback (dense xs).
Proof.
  intros Hr.
  destruct (calcPayback_spec xs) as (_ & Hat & Hbelow).
  destruct (calcPayback_spec (xs ++ ys)) as (Hle' & Hat' & Hbelow').
  rewrite length_app in Hle', Hat'.
  specialize (Hat Hr).
  destruct (Nat.lt_trichotomy (calcPayback (dense (xs ++ ys)))
              (calcPayback (dense xs))) as [Hlt|[Heq|Hgt]].
  - exfalso. specialize (Hat' ltac:(lia)).
    rewrite cumulative_app in Hat' by lia.
    rewrite (Hbelow _ Hlt) in Hat'. done.
  - done.
  - exfalso. specialize (Hbelow' _ Hgt).
    rewrite cumulative_app in Hbelow' by lia.
    rewrite Hat in Hbelow'. done.
Qed.

Lemma calcPayback_prefix_witness :
  calcPayback (dense ([lit (-100); lit 60; lit 60] ++ [lit (-500); lit 10]))
  = calcPayback (dense [lit (-100); lit 60; lit 60]).
Proof.
  apply (calcPayback_prefix [lit (-100); lit 60; lit 60] [lit (-500); lit 10]).
  vm_compute. lia.
Defined.

End PaybackPrefix.

(** ** The panel of an inflow-only simulation *)

Section InflowPanel.

Local Open Scope num_scope.






End InflowPanel.

(** * Properties over binary64 *)

(** ** Payback *)

Section Payback64.

Local Open Scope b64_scope.
Implicit Types (xs : list B64.float).

Lemma get64_dense xs (i : nat) x : xs !! i = Some x -> B64.get (B64.dense xs) i = x.
Proof.
  intros H. unfold B64.get, B64.dense. by rewrite list_lookup_fmap, H.
Qed.

Lemma running_sum_S xs (i : nat) x :
  xs !! i = Some x ->
  running_sum xs i = fold_left B64.add (take i xs) B64.zero + x.
Proof.
  intros Hx. unfold running_sum.
  by rewrite (take_S_r _ _ _ Hx), fold_left_app.
Qed.

Lemma calcPayback64_loop_spec xs (n i : nat) :
  (i + n = length xs)%nat ->
  (forall j, (j < i)%nat -> (running_sum xs j >= B64.zero) = false) ->
  let r := B64.calcPayback_loop (B64.dense xs) n i
             (fold_left B64.add (take i xs) B64.zero) in
  (r <= length xs)%nat
  /\ ((r < length xs)%nat -> (running_sum xs r >= B64.zero) = true)
  /\ (forall j, (j < r)%nat -> (running_sum xs j >= B64.zero) = false).
Proof.
  revert i. induction n as [|n IH]; intros i Hlen Hbelow.
  - simpl. unfold B64.dense. rewrite length_fmap.
    split; [lia|]. split; [lia|]. intros j Hj. apply Hbelow. lia.
  - destruct (lookup_lt_is_Some_2 xs i) as [x Hx]; [lia|].
    cbn [B64.calcPayback_loop].
    rewrite (get64_dense _ _ _ Hx), <- (running_sum_S _ _ _ Hx).
    destruct (running_sum xs i >= B64.zero) eqn:Hge.
    + split; [lia|]. split; [done|]. done.
    + change (running_sum xs i) with (fold_left B64.add (take (S i) xs) B64.zero).
      apply IH; [lia|].
      intros j Hj. destruct (decide (j = i)) as [->|]; [done|].
      apply Hbelow. lia.
Qed.

(** C6. [calcPayback] returns the smallest index whose cumulative sum
    [flows[0] + ... + flows[i]], added from left to right in binary64,
    reaches 0, and the length of the flows when none does: the result
    [r] is at most the length, the cumulative sum at [r] is [>= 0]
    whenever [r] is an index, and it is not [>= 0] at any index below
    [r]. On [[-100, 20, 20, 20, 20, 20]] it is 5, the sums being exact.
    On [[-0.4, 0.1, 0.1, 0.1, 0.1]] it is 5 as well, the length: the
    rounded sum stops at [-2^-55] and no prefix reaches 0. *)
Theorem calcPayback_least :
  (forall xs,
     let r := B64.calcPayback (B64.dense xs) in
     (r <= length xs)%nat
     /\ ((r < length xs)%nat -> (running_sum xs r >= B64.zero) = true)
     /\ (forall j, (j < r)%nat -> (running_sum xs j >= B64.zero) = false)
     /\ ((forall j, (j < length xs)%nat -> (running_sum xs j >= B64.zero) = false) ->
         r = length xs))
  /\ B64.calcPayback
       (B64.dense [B64.of_Z (-100); B64.of_Z 20; B64.of_Z 20; B64.of_Z 20;
                   B64.of_Z 20; B64.of_Z 20]) = 5%nat
  /\ B64.calcPayback
       (B64.dense [B64.neg (B64.decimal 4 1); B64.decimal 1 1; B64.decimal 1 1;
                   B64.decimal 1 1; B64.decimal 1 1]) = 5%nat.
Proof.
  split; [|split; by vm_compute].
  intros xs r.
  destruct (calcPayback64_loop_spec xs (length xs) 0 ltac:(lia) ltac:(lia))
    as (H1 & H2 & H3).
  assert (Hr : B64.calcPayback_loop (B64.dense xs) (length xs) 0
                 (fold_left B64.add (take 0 xs) B64.zero) = r).
  { subst r. unfold B64.calcPayback, B64.dense. by rewrite length_fmap. }
  rewrite Hr in H1, H2, H3.
  repeat split; try done.
  intros Hnone. destruct (decide (r < length xs)%nat) as [Hlt|]; [|lia].
  specialize (H2 Hlt). rewrite (Hnone r Hlt) in H2. done.
Qed.

Lemma calcPayback_least_witness :
  (running_sum [B64.of_Z (-100); B64.of_Z 20; B64.of_Z 20; B64.of_Z 20;
                B64.of_Z 20; B64.of_Z 20] 5 >= B64.zero) = true.
Proof.
  apply (proj1 (proj2 (proj1 calcPayback_least
           [B64.of_Z (-100); B64.of_Z 20; B64.of_Z 20; B64.of_Z 20;
            B64.of_Z 20; B64.of_Z 20]))).
  vm_compute. lia.
Defined.

End Payback64.

(** ** Rate-of-return solver *)

Section Solver64.

Local Open Scope b64_scope.
Variable pow : B64.float -> Z -> B64.float.
Implicit Types (xs : list B64.float) (rate : B64.float).

Lemma sub_add_neg (x y : B64.float) : x - y = x + B64.neg y.
Proof.
  destruct x as [sx|sx| |sx mx ex], y as [sy|sy| |sy my ey];
    try reflexivity;
    destruct sx, sy; reflexivity.
Qed.

Lemma reduce_from_npv_at xs rate (idx : nat) (acc : B64.float) :
  B64.reduce_from
    (fun acc v i => acc + v / pow (B64.of_Z 1 + rate) (Z.of_nat i))
    (B64.dense xs) idx acc
  = fold_left B64.add
      (imap (fun i v => v / pow (B64.of_Z 1 + rate) (Z.of_nat (idx + i))) xs) acc.
Proof.
  revert idx acc. induction xs as [|x xs IH]; intros idx acc; [done|].
  cbn [B64.dense fmap list_fmap B64.reduce_from]. rewrite imap_cons.
  cbn [fold_left]. rewrite Nat.add_0_r.
  change (Some <$> xs) with (B64.dense xs). rewrite IH.
  f_equal. apply imap_ext. intros i v _. unfold compose.
  do 3 f_equal. lia.
Qed.

Lemma npv_of_npv_at xs rate : B64.npv_of pow (B64.dense xs) rate = npv_at pow xs rate.
Proof. unfold B64.npv_of, B64.reduce, npv_at. apply reduce_from_npv_at. Qed.

Lemma Math_max_floor rate : B64.Math_max rate rate_floor = floor_clamp rate.
Proof.
  unfold floor_clamp.
  destruct rate as [s|s| |s m e]; try reflexivity.
Qed.

Lemma floor_clamp_above rate : (floor_clamp rate < rate_floor) = false.
Proof.
  unfold floor_clamp. destruct (rate < rate_floor) eqn:E; [by vm_compute|done].
Qed.

Lemma calcTIR_body_step xs rate :
  B64.Math_max
    (rate + (if npv_at pow xs rate > B64.zero
             then B64.decimal 1 2 else B64.neg (B64.decimal 1 2)))
    (B64.neg (B64.decimal 99 2))
  = search_step pow xs rate.
Proof.
  change (B64.neg (B64.decimal 99 2)) with rate_floor.
  rewrite Math_max_floor. unfold search_step.
  destruct (npv_at pow xs rate > B64.zero); [done|].
  by rewrite sub_add_neg.
Qed.

Lemma calcTIR64_loop_spec xs (n : nat) rate :
  exists k : nat,
    (k <= n)%nat
    /\ B64.calcTIR_loop pow (B64.dense xs) n rate = Nat.iter k (search_step pow xs) rate
    /\ (forall j, (j < k)%nat ->
          within_tolerance pow xs (Nat.iter j (search_step pow xs) rate) = false)
    /\ ((k < n)%nat ->
          within_tolerance pow xs (Nat.iter k (search_step pow xs) rate) = true).
Proof.
  revert rate. induction n as [|n IH]; intros rate.
  - exists 0%nat. repeat split; [done| |]; lia.
  - cbn [B64.calcTIR_loop]. rewrite npv_of_npv_at.
    change (B64.Math_abs (npv_at pow xs rate) < B64.tolerance)
      with (within_tolerance pow xs rate).
    destruct (within_tolerance pow xs rate) eqn:Hc.
    + exists 0%nat. repeat split; [lia|lia|done].
    + rewrite calcTIR_body_step.
      destruct (IH (search_step pow xs rate)) as (k & Hk & Hres & Hbelow & Hat).
      exists (S k). rewrite !Nat.iter_succ_r.
      repeat split; [lia|done| |].
      * intros [|j] Hj; [done|].
        rewrite Nat.iter_succ_r. apply Hbelow. lia.
      * intros Hlt. apply Hat. lia.
Qed.

(** C2. [calcTIR] starts at rate 0.01 and runs at most 200 iterations:
    it returns the rate reached after [k <= 200] steps, where no earlier
    rate met the tolerance [|npv| < 1e-6], and the returned one meets it
    unless all 200 steps were taken, in which case the last computed
    rate is returned as it is. Each step adds 0.01 when [npv > 0] and
    subtracts 0.01 otherwise, each rate being the rounded sum of the one
    before, and no rate after a step is below the floor [-0.99]. The
    result is a rate in every case, whatever [Math.pow] returns: no
    error is raised. *)
Theorem calcTIR_search (xs : list B64.float) :
  rate_at pow xs 0 = B64.decimal 1 2
  /\ (forall k, rate_at pow xs (S k) = search_step pow xs (rate_at pow xs k))
  /\ (forall k, (rate_at pow xs (S k) < rate_floor) = false)
  /\ exists k : nat,
       (k <= 200)%nat
       /\ B64.calcTIR pow (B64.dense xs) = rate_at pow xs k
       /\ (forall j, (j < k)%nat -> within_tolerance pow xs (rate_at pow xs j) = false)
       /\ ((k < 200)%nat -> within_tolerance pow xs (rate_at pow xs k) = true).
Proof.
  split; [done|]. split; [done|]. split.
  - intros k. unfold rate_at. rewrite Nat.iter_succ.
    unfold search_step. apply floor_clamp_above.
  - apply (calcTIR64_loop_spec xs 200 (B64.decimal 1 2)).
Qed.

Lemma calcTIR64_loop_floor (a : B64.array) (n : nat) rate :
  (rate < rate_floor) = false ->
  (B64.calcTIR_loop pow a n rate < rate_floor) = false.
Proof.
  revert rate. induction n as [|n IH]; intros rate Hr; [done|].
  cbn [B64.calcTIR_loop].
  destruct (B64.Math_abs (B64.npv_of pow a rate) < B64.tolerance); [done|].
  apply IH. change (B64.neg (B64.decimal 99 2)) with rate_floor.
  rewrite Math_max_floor. apply floor_clamp_above.
Qed.

(** X5. Whatever the flows, holes and [NaN] included, and whatever
    [Math.pow] returns, [calcTIR] never returns a rate below the floor
    [-0.99]: it returns the starting rate 0.01 or a rate that went
    through [Math.max(rate, -0.99)]. *)
Theorem calcTIR_floor (a : B64.array) :
  (B64.calcTIR pow a < rate_floor) = false.
Proof. apply calcTIR64_loop_floor. by vm_compute. Qed.

End Solver64.

(** The rates are accumulated sums, not exact hundredths. On
    [[-1e12, 1.1e12]], whose exact root is 0.1, the ninth step up gives
    the binary64 just below 0.1, where [npv] is about 0.0001 and the
    tolerance is not met; the search then swings around the root until
    the 200 iterations are used up and returns 0.09. Only the exponents
    0 and 1 of [Math.pow] are used. *)
Example calcTIR_accumulated_rate :
  B64.calcTIR pow_repeated
    (B64.dense [B64.of_Z (-1000000000000); B64.of_Z 1100000000000])
  = B64.decimal 9 2
  /\ Nat.iter 9 (fun r => B64.add r (B64.decimal 1 2)) (B64.decimal 1 2)
     <> B64.decimal 1 1.
Proof. split; [by vm_compute|]. intros H. by vm_compute in H. Qed.

(** ** Order of binary64 numbers and [Math.min] *)

Section Order64.

Local Open Scope b64_scope.
Implicit Types (a b x m : B64.float) (xs : list B64.float).

Lemma SFcompare_antisym a b :
  SFcompare b a = CompOpp <$> SFcompare a b.
Proof.
  destruct a as [sa|sa| |sa ma ea], b as [sb|sb| |sb mb eb]; try reflexivity;
    try (destruct sa; reflexivity); try (destruct sb; reflexivity);
    try (destruct sa, sb; reflexivity).
  cbn [SFcompare fmap option_fmap option_map].
  rewrite (Z.compare_antisym ea eb).
  change (Pos.compare_cont Eq mb ma) with (Pos.compare mb ma).
  change (Pos.compare_cont Eq ma mb) with (Pos.compare ma mb).
  rewrite (Pos.compare_antisym ma mb).
  destruct sa, sb; try reflexivity;
    destruct (ea ?= eb)%Z; try reflexivity;
    destruct (ma ?= mb)%positive; reflexivity.
Qed.

Lemma le_not_gt m x : (m <= x) = true -> (x < m) = false.
Proof.
  unfold B64.le, B64.lt, SFleb, SFltb. rewrite (SFcompare_antisym m x).
  destruct (SFcompare m x) as [[]|]; simpl; congruence.
Qed.

Lemma SFcompare_Eq a b : SFcompare a b = Some Eq -> same_number a b.
Proof.
  destruct a as [sa|sa| |sa ma ea], b as [sb|sb| |sb mb eb];
    cbn [SFcompare]; intros H; try discriminate H;
    try (destruct sa; discriminate H); try (destruct sb; discriminate H).
  - right. by eexists _, _.
  - left. destruct sa, sb; done.
  - left.
    assert (Hs : sa = sb) by (destruct sa, sb; done). subst sb.
    assert (He : ea = eb).
    { apply Z.compare_eq. destruct sa, (ea ?= eb)%Z; done. }
    subst eb. rewrite Z.compare_refl in H.
    change (Pos.compare_cont Eq ma mb) with (Pos.compare ma mb) in H.
    assert (Hm : ma = mb).
    { apply Pos.compare_eq. destruct sa, (ma ?= mb)%positive; done. }
    by subst mb.
Qed.

Lemma le_not_lt_same m x : (m <= x) = true -> (m < x) = false -> same_number x m.
Proof.
  unfold B64.le, B64.lt, SFleb, SFltb. intros Hle Hlt.
  destruct (SFcompare m x) as [[]|] eqn:E; try discriminate.
  apply SFcompare_Eq in E. destruct E as [->|(sa & sb & -> & ->)]; [by left|].
  right. by eexists _, _.
Qed.

Lemma lt_same x a b : same_number a b -> (x < a) = (x < b).
Proof.
  intros [->|(sa & sb & -> & ->)]; [done|]. by destruct x.
Qed.

Lemma le_not_nan m x : (m <= x) = true -> m <> S754_nan /\ x <> S754_nan.
Proof. destruct m, x; simpl; try discriminate; by split. Qed.

Lemma min2_same lo m x :
  same_number lo m -> (m <= x) = true -> same_number (B64.min2 lo x) m.
Proof.
  intros Hs Hle. pose proof (le_not_gt _ _ Hle) as Hgt.
  rewrite <- (lt_same x _ _ Hs) in Hgt.
  destruct (le_not_nan _ _ Hle) as [Hm Hx].
  assert (Hlo : lo <> S754_nan).
  { destruct Hs as [->|(sa & sb & -> & _)]; done. }
  destruct lo as [sl|sl| |sl ml el], x as [sx|sx| |sx mx ex]; try done;
    try (unfold B64.min2; rewrite Hgt; exact Hs).
  destruct Hs as [<-|(sa & sb & _ & ->)]; right; by eexists _, _.
Qed.

Lemma fold_min2_same xs lo m :
  same_number lo m -> (forall x, x ∈ xs -> (m <= x) = true) ->
  same_number (fold_left B64.min2 xs lo) m.
Proof.
  revert lo. induction xs as [|x xs IH]; intros lo Hs Hall; [done|].
  cbn [fold_left]. apply IH.
  - apply min2_same; [done|]. apply Hall. by left.
  - intros y Hy. apply Hall. by right.
Qed.

Lemma min2_le lo m x :
  (m <= lo) = true -> (m <= x) = true -> (m <= B64.min2 lo x) = true.
Proof.
  intros Hlo Hx.
  destruct (le_not_nan _ _ Hlo) as [_ Hl], (le_not_nan _ _ Hx) as [_ Hxn].
  destruct lo as [sl|sl| |sl ml el], x as [sx|sx| |sx mx ex]; try done;
    try (unfold B64.min2; destruct (_ < _); done).
Qed.

Lemma min2_first lo m :
  (m <= lo) = true -> same_number (B64.min2 lo m) m.
Proof.
  intros Hlo. destruct (le_not_nan _ _ Hlo) as [Hm Hl].
  assert (Hcase : same_number (if m < lo then m else lo) m).
  { destruct (m < lo) eqn:E; [by left|]. by apply le_not_lt_same. }
  destruct lo as [sl|sl| |sl ml el], m as [sx|sx| |sx mx ex]; try done.
  right. by eexists _, _.
Qed.

Lemma fold_min2_least xs lo m :
  m ∈ xs -> (forall x, x ∈ xs -> (m <= x) = true) -> (m <= lo) = true ->
  same_number (fold_left B64.min2 xs lo) m.
Proof.
  revert lo. induction xs as [|x xs IH]; intros lo Hm Hall Hlo.
  - by apply elem_of_nil in Hm.
  - cbn [fold_left]. apply elem_of_cons in Hm as [<-|Hm].
    + apply fold_min2_same; [by apply min2_first|].
      intros y Hy. apply Hall. by right.
    + apply IH; [done| |].
      * intros y Hy. apply Hall. by right.
      * apply min2_le; [done|]. apply Hall. by left.
Qed.

Lemma Math_min_least xs m :
  m ∈ xs -> (forall x, x ∈ xs -> (m <= x) = true) ->
  same_number (B64.Math_min xs) m.
Proof.
  intros Hm Hall. apply fold_min2_least; [done|done|].
  specialize (Hall m Hm). destruct m as [s|[]| |s mm e]; cbn in Hall |- *; congruence.
Qed.

End Order64.

(** ** Two decimals *)

Section Fixed64.

Lemma Qpower_2_pos (k : positive) : (Qpower 2 (Zpos k) == inject_Z (2 ^ Zpos k))%Q.
Proof. symmetry. apply (Zpower_Qpower 2 (Zpos k)). lia. Qed.

Lemma Qpower_2_neg (k : positive) : (Qpower 2 (Zneg k) == / inject_Z (2 ^ Zpos k))%Q.
Proof.
  change (Qpower 2 (Zneg k)) with (/ Qpower 2 (Zpos k))%Q.
  by rewrite Qpower_2_pos.
Qed.

Lemma Qabs_signed (s : bool) (m : positive) (p : Q) :
  (0 < p)%Q ->
  (Qabs (inject_Z (if s then Z.neg m else Z.pos m) * p) == inject_Z (Z.pos m) * p)%Q.
Proof.
  intros Hp. rewrite Qabs_Qmult, (Qabs_pos p) by lra.
  apply Qmult_comp; [|reflexivity]. by destruct s.
Qed.

Lemma float_value_abs (s : bool) (m : positive) (e : Z) (q : Q) :
  float_value (S754_finite s m e) = Some q ->
  (Qabs q == inject_Z (Z.pos m) * Qpower 2 e)%Q /\ ((q < 0)%Q <-> s = true).
Proof.
  intros [= <-].
  assert (Hp : (0 < Qpower 2 e)%Q) by (apply Qpower_0_lt; lra).
  split; [by apply Qabs_signed|].
  destruct s; split; try done.
  - intros _.
    assert (H : (inject_Z (Z.neg m) < 0)%Q) by (unfold Qlt; simpl; lia).
    nra.
  - intros H.
    assert (H' : (0 < inject_Z (Z.pos m))%Q) by (unfold Qlt; simpl; lia).
    nra.
Qed.

Lemma hundredths_of_nearest (m : positive) (e : Z) :
  let a := (inject_Z (Z.pos m) * Qpower 2 e)%Q in
  (a * 100 - (1 # 2) < inject_Z (B64.hundredths_of m e) <= a * 100 + (1 # 2))%Q.
Proof.
  destruct e as [|k|k]; cbn [B64.hundredths_of].
  - cbn zeta. change (Qpower 2 0) with 1%Q.
    rewrite Z.pow_0_r, Z.mul_1_r, inject_Z_mult.
    change (inject_Z 100) with 100%Q. lra.
  - cbn zeta. rewrite Qpower_2_pos, !inject_Z_mult.
    change (inject_Z 100) with 100%Q. lra.
  - cbn zeta. rewrite Qpower_2_neg.
    set (P := 2 ^ Z.pos k).
    assert (HP : 0 < P) by (apply Z.pow_pos_nonneg; lia).
    replace (2 ^ (Z.pos k + 1)) with (2 * P) by (unfold P; rewrite Z.pow_add_r by lia; lia).
    pose proof (Z.mul_div_le (200 * Z.pos m + P) (2 * P) ltac:(lia)) as Hle.
    pose proof (Z.mul_succ_div_gt (200 * Z.pos m + P) (2 * P) ltac:(lia)) as Hgt.
    set (n := (200 * Z.pos m + P) / (2 * P)) in *.
    rewrite Zle_Qle in Hle. rewrite Zlt_Qlt in Hgt. unfold Z.succ in Hgt.
    repeat (rewrite inject_Z_mult in Hle || rewrite inject_Z_plus in Hle).
    repeat (rewrite inject_Z_mult in Hgt || rewrite inject_Z_plus in Hgt).
    change (inject_Z 200) with 200%Q in *. change (inject_Z 2) with 2%Q in *.
    change (inject_Z 1) with 1%Q in *.
    assert (HPq : (0 < inject_Z P)%Q) by (unfold Qlt; simpl; lia).
    assert (Hx : (inject_Z P * / inject_Z P == 1)%Q) by (apply Qmult_inv_r; lra).
    set (p := inject_Z P) in *. set (mq := inject_Z (Z.pos m)) in *.
    set (nq := inject_Z n) in *. set (x := (/ p)%Q) in *.
    clearbody p mq nq x. clear -HPq Hle Hgt Hx.
    assert (Hm : (p * (mq * x) == mq)%Q).
    { rewrite Qmult_assoc, (Qmult_comm p mq), <- Qmult_assoc, Hx. ring. }
    set (a := (mq * x)%Q) in *. clearbody a.
    assert (E1 : (p * (2 * nq - 200 * a - 1) == 2 * p * nq - 200 * (p * a) - p)%Q) by ring.
    assert (E2 : (p * (200 * a - 1 - 2 * nq) == 200 * (p * a) + p - 2 * p * (nq + 1))%Q) by ring.
    rewrite Hm in E1, E2.
    split.
    + destruct (Qlt_le_dec (a * 100 - (1 # 2)) nq) as [|Hc]; [done|].
      exfalso.
      assert (0 <= p * (200 * a - 1 - 2 * nq))%Q; [|lra].
      apply Qmult_le_0_compat; lra.
    + destruct (Qlt_le_dec (a * 100 + (1 # 2)) nq) as [Hc|]; [|done].
      exfalso.
      assert (0 < p * (2 * nq - 200 * a - 1))%Q; [|lra].
      apply Qmult_lt_0_compat; lra.
Qed.


Lemma below_1e21_true (m : positive) (e : Z) :
  (inject_Z (Z.pos m) * Qpower 2 e < inject_Z (10 ^ 21))%Q ->
  B64.below_1e21 m e = true.
Proof.
  destruct e as [|k|k]; cbn [B64.below_1e21]; intros H; apply Z.ltb_lt.
  - change (Qpower 2 0) with 1%Q in H. rewrite Qmult_1_r, <- Zlt_Qlt in H. lia.
  - rewrite Qpower_2_pos, <- inject_Z_mult, <- Zlt_Qlt in H. done.
  - rewrite Qpower_2_neg in H.
    set (P := 2 ^ Z.pos k) in *.
    assert (HP : 0 < P) by (apply Z.pow_pos_nonneg; lia).
    assert (HPq : (0 < inject_Z P)%Q) by (unfold Qlt; simpl; lia).
    rewrite Zlt_Qlt, inject_Z_mult.
    apply (Qmult_lt_r _ _ (inject_Z P) HPq) in H.
    assert (E : (inject_Z (Z.pos m) * / inject_Z P * inject_Z P
                 == inject_Z (Z.pos m))%Q) by (field; lra).
    by rewrite E in H.
Qed.

(** Reading back what [fixed2] writes. *)
Lemma read_digits_app (t u : string) (a b : Z) :
  read_digits a t = Some b -> read_digits a (t ++ u) = read_digits b u.
Proof.
  revert a. induction t as [|c t IH]; intros a; simpl.
  - by intros [= ->].
  - destruct (digit_value c); [apply IH|done].
Qed.

Lemma read_point_digits (t u : string) (a b : Z) :
  read_digits a t = Some b -> String.length u = 2%nat ->
  read_point a (t ++ String "." u) = read_digits b u.
Proof.
  revert a. induction t as [|c t IH]; intros a; simpl.
  - intros [= ->] ->. done.
  - destruct (digit_value c) eqn:Ed; [|done].
    intros Ht Hu.
    destruct (Ascii.eqb c ".") eqn:Ec.
    + apply Ascii.eqb_eq in Ec. subst c. by vm_compute in Ed.
    + by apply IH.
Qed.

Lemma digit_value_pretty (x : N) :
  (x < 10)%N -> digit_value (pretty_N_char x) = Some (Z.of_N x).
Proof.
  intros Hx.
  assert (x = 0 \/ x = 1 \/ x = 2 \/ x = 3 \/ x = 4 \/ x = 5
          \/ x = 6 \/ x = 7 \/ x = 8 \/ x = 9)%N as Hc by lia.
  repeat (destruct Hc as [->|Hc]; [reflexivity|]). by subst x.
Qed.

Lemma string_app_assoc (s t u : string) :
  ((s ++ t) ++ u = s ++ t ++ u)%string.
Proof.
  induction s as [|c s IH]; [done|].
  change (String c ((s ++ t) ++ u) = String c (s ++ t ++ u))%string.
  by f_equal.
Qed.

Lemma pretty_N_go_app (x : N) (s : string) :
  pretty_N_go x s = (pretty_N_go x "" ++ s)%string.
Proof.
  revert s. induction (N.lt_wf_0 x) as [x _ IH]; intros s.
  destruct (decide (x = 0)%N) as [->|Hx]; [done|].
  rewrite (pretty_N_go_step x s), (pretty_N_go_step x "") by lia.
  rewrite (IH (x `div` 10)%N) by (apply N.div_lt; lia).
  rewrite (IH (x `div` 10)%N ltac:(apply N.div_lt; lia) (String _ "")).
  by rewrite string_app_assoc.
Qed.

Lemma read_digits_pretty_N_go (x : N) :
  read_digits 0 (pretty_N_go x "") = Some (Z.of_N x).
Proof.
  induction (N.lt_wf_0 x) as [x _ IH].
  destruct (decide (x = 0)%N) as [->|Hx]; [done|].
  rewrite pretty_N_go_step by lia. rewrite pretty_N_go_app.
  rewrite (read_digits_app _ _ 0 (Z.of_N (x `div` 10)%N))
    by (apply IH, N.div_lt; lia).
  cbn [read_digits]. rewrite digit_value_pretty by (apply N.mod_lt; lia).
  f_equal. rewrite (N.div_mod x 10) at 3 by lia. lia.
Qed.

Lemma read_digits_pretty (z : Z) :
  0 <= z -> read_digits 0 (pretty z) = Some z.
Proof.
  intros Hz. destruct z as [|p|p]; [done| |lia].
  change (pretty (Z.pos p)) with (pretty (N.pos p)).
  unfold pretty, pretty_N. rewrite decide_False by done.
  apply (read_digits_pretty_N_go (N.pos p)).
Qed.

Lemma two_digits_read (r a : Z) :
  0 <= r < 100 ->
  String.length (two_digits r) = 2%nat
  /\ read_digits a (two_digits r) = Some (a * 100 + r).
Proof.
  intros Hr.
  assert (Hall : forallb
            (fun r => match two_digits r with
                      | String c1 (String c0 EmptyString) =>
                          match digit_value c1, digit_value c0 with
                          | Some d1, Some d0 => (d1 * 10 + d0 =? r)
                          | _, _ => false
                          end
                      | _ => false
                      end) (seqZ 0 100) = true) by (by vm_compute).
  rewrite forallb_forall in Hall. specialize (Hall r).
  destruct (two_digits r) as [|c1 [|c0 [|]]]; try (discriminate Hall; fail).
  all: try (exfalso; assert (Hin : In r (seqZ 0 100)); [|specialize (Hall Hin); discriminate]).
  all: try (apply list_elem_of_In, elem_of_seqZ; lia).
  assert (Hin : In r (seqZ 0 100)) by (apply list_elem_of_In, elem_of_seqZ; lia).
  specialize (Hall Hin).
  destruct (digit_value c1) as [d1|] eqn:E1; [|done].
  destruct (digit_value c0) as [d0|] eqn:E0; [|done].
  apply Z.eqb_eq in Hall. split; [done|].
  cbn [read_digits]. rewrite E1, E0. f_equal. lia.
Qed.

Lemma read_fixed2_fixed2 (negative : bool) (n : Z) :
  0 <= n -> read_fixed2 (fixed2 negative n) = Some (negative, n).
Proof.
  intros Hn. unfold fixed2.
  assert (Hq : 0 <= n / 100) by (apply Z.div_pos; lia).
  assert (Hr : 0 <= n mod 100 < 100) by (apply Z.mod_pos_bound; lia).
  destruct (two_digits_read (n mod 100) (n / 100) Hr) as [Hlen Hread].
  assert (Hp : read_point 0 (pretty (n / 100) ++ "." ++ two_digits (n mod 100))
               = Some n).
  { change ("." ++ two_digits (n mod 100))%string
      with (String "." (two_digits (n mod 100))).
    rewrite (read_point_digits _ _ 0 (n / 100)); [|by apply read_digits_pretty|done].
    rewrite Hread. f_equal. rewrite (Z.div_mod n 100) at 3 by lia. lia. }
  destruct negative.
  - change ("-" ++ ?s)%string with (String "-" s).
    cbn [read_fixed2]. 
    change (("-" ++ pretty (n / 100) ++ "." ++ two_digits (n mod 100))%string)
      with (String "-" (pretty (n / 100) ++ "." ++ two_digits (n mod 100))).
    cbn [read_fixed2]. by rewrite Hp.
  - change ("" ++ ?s)%string with s.
    unfold read_fixed2.
    destruct (pretty (n / 100) ++ "." ++ two_digits (n mod 100))%string as [|c s] eqn:E.
    + by rewrite Hp.
    + destruct (Ascii.eqb c "-") eqn:Ec.
      * apply Ascii.eqb_eq in Ec. subst c. simpl in Hp. discriminate.
      * assert (Hc : c <> "-"%char) by (by apply Ascii.eqb_neq).
        rewrite Hp.
        destruct c as [[] [] [] [] [] [] [] []]; try reflexivity.
        by destruct Hc.
Qed.

End Fixed64.

(** ** Return on investment *)

Section ROI64.

Local Open Scope b64_scope.
Implicit Types (xs : list B64.float).

Lemma reduce_from_add_dense64 xs (idx : nat) (a : B64.float) :
  B64.reduce_from (fun a b _ => a + b) (B64.dense xs) idx a = fold_left B64.add xs a.
Proof.
  revert idx a. induction xs as [|x xs IH]; intros idx a; [done|].
  simpl. apply IH.
Qed.

Lemma spread_dense64 xs : B64.spread (B64.dense xs) = xs.
Proof.
  unfold B64.spread, B64.dense. rewrite <- list_fmap_compose.
  induction xs as [|x xs IH]; [done|]. simpl. by f_equal.
Qed.

Lemma calcROI64_dense xs :
  B64.calcROI (B64.dense xs)
  = if B64.neg (B64.Math_min xs) <= B64.zero then Some (B64.Number B64.zero)
    else B64.Str <$> B64.toFixed2
           (total_of xs / B64.neg (B64.Math_min xs) * B64.of_Z 100).
Proof.
  unfold B64.calcROI, B64.reduce.
  by rewrite reduce_from_add_dense64, spread_dense64.
Qed.

Lemma toFixed2_rounded (x : B64.float) (q : Q) :
  float_value x = Some q -> (Qabs q < inject_Z (10 ^ 21))%Q ->
  exists (s : string) (negative : bool) (n : Z),
    B64.toFixed2 x = Some s
    /\ read_fixed2 s = Some (negative, n)
    /\ (negative = true <-> (q < 0)%Q)
    /\ (Qabs q * 100 - (1 # 2) < inject_Z n <= Qabs q * 100 + (1 # 2))%Q.
Proof.
  intros Hq Hlt. destruct x as [s0|s0| |s0 m e]; try discriminate.
  - injection Hq as <-.
    exists (fixed2 false 0), false, 0%Z. split; [done|].
    split; [by apply read_fixed2_fixed2|].
    split; [split; [done|intros H; by apply Qlt_irrefl in H]|].
    change (Qabs 0) with 0%Q. change (inject_Z 0) with 0%Q. lra.
  - destruct (float_value_abs _ _ _ _ Hq) as [Habs Hneg].
    pose proof (hundredths_of_nearest m e) as Hn. cbn zeta in Hn.
    rewrite <- Habs in Hn.
    assert (H0 : (0 <= B64.hundredths_of m e)%Z).
    { assert (Hq0 : (inject_Z (-1) < inject_Z (B64.hundredths_of m e))%Q).
      { pose proof (Qabs_nonneg q). change (inject_Z (-1)) with (-1)%Q. lra. }
      rewrite <- Zlt_Qlt in Hq0. lia. }
    exists (fixed2 s0 (B64.hundredths_of m e)), s0, (B64.hundredths_of m e).
    split.
    { cbn [B64.toFixed2]. rewrite below_1e21_true; [done|]. by rewrite <- Habs. }
    split; [by apply read_fixed2_fixed2|].
    split; [|done]. split; [by intros ->; apply Hneg|apply Hneg].
Qed.

(** C7. [calcROI] takes [total = Σ flows], added from left to right
    in binary64, and [invested = -min(flows)]. Whenever [invested <= 0]
    it returns the number 0 before any division; this covers flows that
    are never negative and the empty flows. Otherwise it returns
    [(total / invested) * 100] written with two decimals: below [10^21]
    the text reads back as a sign and an integer [n] of hundredths, [n]
    being the integer closest to 100 times the absolute value of the
    binary64 quotient (the larger one on a tie), and the sign that of
    the quotient. On [[-200, 50, 50, 50, 50]] [invested] is 200, [total]
    is 0 and the result reads [0.00]; on [[-160, 183]] the quotient is
    the binary64 just below 14.375 and the result reads [14.37]. *)
Theorem calcROI_rounded :
  (forall flows : B64.array,
     (B64.neg (B64.Math_min (B64.spread flows)) <= B64.zero) = true ->
     B64.calcROI flows = Some (B64.Number B64.zero))
  /\ B64.calcROI (B64.dense []) = Some (B64.Number B64.zero)
  /\ (forall xs (m : B64.float),
        m ∈ xs -> (forall x, x ∈ xs -> (m <= x) = true) ->
        let total := total_of xs in
        let invested := B64.neg m in
        ((invested <= B64.zero) = true ->
           B64.calcROI (B64.dense xs) = Some (B64.Number B64.zero))
        /\ ((invested <= B64.zero) = false ->
            let roi := total / invested * B64.of_Z 100 in
            forall q : Q,
              float_value roi = Some q -> (Qabs q < inject_Z (10 ^ 21))%Q ->
              exists (s : string) (negative : bool) (n : Z),
                B64.calcROI (B64.dense xs) = Some (B64.Str s)
                /\ read_fixed2 s = Some (negative, n)
                /\ (negative = true <-> (q < 0)%Q)
                /\ (Qabs q * 100 - (1 # 2) < inject_Z n
                    <= Qabs q * 100 + (1 # 2))%Q))
  /\ (let xs := [B64.of_Z (-200); B64.of_Z 50; B64.of_Z 50; B64.of_Z 50; B64.of_Z 50] in
      B64.neg (B64.of_Z (-200)) = B64.of_Z 200 /\ total_of xs = B64.zero
      /\ B64.calcROI (B64.dense xs) = Some (B64.Str "0.00"))
  /\ B64.calcROI (B64.dense [B64.of_Z (-160); B64.of_Z 183]) = Some (B64.Str "14.37").
Proof.
  split; [|split; [|split; [|split]]].
  - intros flows H. unfold B64.calcROI. by rewrite H.
  - by vm_compute.
  - intros xs m Hm Hall total invested.
    pose proof (Math_min_least xs m Hm Hall) as Hsame.
    rewrite calcROI64_dense. split.
    + intros Hle. subst invested.
      destruct Hsame as [->|(sa & sb & -> & ->)]; [by rewrite Hle|done].
    + intros Hgt roi q Hq Hlt. subst total invested roi.
      assert (Hr : B64.Math_min xs = m).
      { destruct Hsame as [->|(sa & sb & _ & ->)]; [done|]. by destruct sb. }
      rewrite Hr, Hgt.
      destruct (toFixed2_rounded _ q Hq Hlt) as (s & negative & n & Hs & Hrest).
      exists s, negative, n. by rewrite Hs.
  - by vm_compute.
  - by vm_compute.
Qed.

Lemma calcROI_rounded_witness :
  let xs := [B64.of_Z (-160); B64.of_Z 183] in
  let q := (inject_Z 8092405580431359 * Qpower 2 (-49))%Q in
  exists (s : string) (negative : bool) (n : Z),
    B64.calcROI (B64.dense xs) = Some (B64.Str s)
    /\ read_fixed2 s = Some (negative, n)
    /\ (negative = true <-> (q < 0)%Q)
    /\ (Qabs q * 100 - (1 # 2) < inject_Z n <= Qabs q * 100 + (1 # 2))%Q.
Proof.
  intros xs q.
  destruct calcROI_rounded as (_ & _ & H & _).
  destruct (H xs (B64.of_Z (-160))) as [_ Hpos].
  - constructor.
  - intros x Hx. subst xs.
    repeat (apply elem_of_cons in Hx as [->|Hx]); try (by vm_compute).
    by apply elem_of_nil in Hx.
  - apply Hpos.
    + by vm_compute.
    + by vm_compute.
    + by vm_compute.
Defined.

End ROI64.

(** ** Aggregation *)

Section Aggregation64.

Local Open Scope b64_scope.
Implicit Types (xs ys pre : list B64.float) (vs : list (list B64.float)).

Lemma units_forEach64_fold pow cfg units idx allFlows :
  B64.units_forEach pow cfg units idx allFlows
  = fold_left B64.add_flow (unit_vectors pow cfg units idx) allFlows.
Proof.
  revert idx allFlows. induction units as [|u units IH]; intros idx allFlows; [done|].
  simpl. apply IH.
Qed.

Lemma add_at64_dense_middle pre x xs v :
  (Z.of_nat (length pre) < 4294967295)%Z ->
  B64.add_at (B64.dense (pre ++ x :: xs)) (Z.of_nat (length pre)) v
  = B64.dense (pre ++ (x + v) :: xs).
Proof.
  intros Hs. unfold B64.add_at. rewrite is_index_of_nat by done.
  rewrite Nat2Z.id. unfold B64.dense. rewrite !fmap_app, !fmap_cons.
  assert (Hget : B64.get ((Some <$> pre) ++ Some x :: (Some <$> xs)) (length pre) = x).
  { unfold B64.get. rewrite lookup_app_r; rewrite length_fmap; [|lia].
    by rewrite Nat.sub_diag. }
  rewrite Hget. unfold B64.assign.
  rewrite decide_True by (rewrite length_app, length_fmap; simpl; lia).
  rewrite insert_app_r_alt by (rewrite length_fmap; lia).
  by rewrite length_fmap, Nat.sub_diag.
Qed.

Lemma forEach64_add_dense ys pre xs :
  length xs = length ys ->
  (Z.of_nat (length pre + length ys) < 4294967295)%Z ->
  B64.reduce_from (fun allFlows v m => B64.add_at allFlows (Z.of_nat m) v)
    (B64.dense ys) (length pre) (B64.dense (pre ++ xs))
  = B64.dense (pre ++ vadd64 xs ys).
Proof.
  revert pre xs. induction ys as [|y ys IH]; intros pre xs Hlen Hs.
  - destruct xs; [done|discriminate].
  - destruct xs as [|x xs]; [discriminate|].
    simpl in Hlen, Hs. simpl B64.reduce_from.
    rewrite add_at64_dense_middle by lia.
    replace (S (length pre)) with (length (pre ++ [x + y]))
      by (rewrite length_app; simpl; lia).
    rewrite (cons_middle (x + y) pre xs), app_assoc.
    rewrite IH.
    + by rewrite <- app_assoc.
    + lia.
    + rewrite length_app. simpl. lia.
Qed.

Lemma add_flow64_dense xs ys :
  length xs = length ys -> (Z.of_nat (length ys) < 4294967295)%Z ->
  B64.add_flow (B64.dense xs) (B64.dense ys) = B64.dense (vadd64 xs ys).
Proof.
  intros Hlen Hs.
  apply (forEach64_add_dense ys [] xs Hlen). simpl. lia.
Qed.

Lemma fold_add_flow64_dense vs acc :
  Forall vector24 vs -> vector24 acc ->
  fold_left B64.add_flow (B64.dense <$> vs) (B64.dense acc)
  = B64.dense (fold_left vadd64 vs acc).
Proof.
  intros Hvs. revert acc. induction Hvs as [|v vs Hv _ IH]; intros acc Ha; [done|].
  simpl. unfold vector24 in *. rewrite add_flow64_dense by lia.
  apply IH. unfold vadd64. rewrite length_zip_with. lia.
Qed.

Lemma lookup_fold_vadd64 vs acc (m : nat) x :
  Forall vector24 vs -> acc !! m = Some x -> (m < 24)%nat ->
  fold_left vadd64 vs acc !! m
  = Some (fold_left B64.add (entries_at vs m) x).
Proof.
  intros Hvs. revert acc x.
  induction Hvs as [|v vs Hv _ IH]; intros acc x Hacc Hm; [done|].
  simpl. apply IH; [|done].
  unfold vadd64. rewrite lookup_zip_with, Hacc. simpl.
  destruct (lookup_lt_is_Some_2 v m) as [y Hy]; [unfold vector24 in Hv; lia|].
  rewrite Hy. simpl. do 2 f_equal.
  symmetry. by apply nth_lookup_Some.
Qed.

Lemma add64_comm_finite sx mx ex sy my ey :
  S754_finite sx mx ex + S754_finite sy my ey
  = S754_finite sy my ey + S754_finite sx mx ex.
Proof.
  unfold B64.add, SFadd. cbn zeta.
  rewrite (Z.min_comm ey ex). f_equal. apply Z.add_comm.
Qed.

Lemma add64_zero_swap (x y : B64.float) :
  B64.zero + x + y = B64.zero + y + x.
Proof.
  destruct x as [sx|sx| |sx mx ex], y as [sy|sy| |sy my ey];
    try reflexivity; try (destruct sx; reflexivity);
    try (destruct sy; reflexivity); try (destruct sx, sy; reflexivity).
  apply add64_comm_finite.
Qed.

(** C8 as amended. The [allFlows] of [runSimulation] is the aggregate
    of the vectors of the units, and aggregation is the element-wise sum
    of 24-entry vectors taken in list order: no unit gives 24 zeros,
    entry [m] of the aggregate is the sum of the entries [m] of the
    inputs, added from left to right from 0 with each addition rounded,
    and two vectors give the same aggregate in either order. *)
Theorem aggregate_in_order :
  (forall pow cfg units,
     B64.runSimulation_allFlows pow cfg units
     = B64.aggregate (unit_vectors pow cfg units 0))
  /\ B64.aggregate [] = B64.dense (replicate 24 B64.zero)
  /\ (forall vs (m : nat), Forall vector24 vs -> (m < 24)%nat ->
        B64.aggregate (B64.dense <$> vs) !! m
        = Some (Some (fold_left B64.add (entries_at vs m) B64.zero)))
  /\ (forall u v, vector24 u -> vector24 v ->
        B64.aggregate [B64.dense u; B64.dense v]
        = B64.aggregate [B64.dense v; B64.dense u]).
Proof.
  split; [intros; apply units_forEach64_fold|].
  split; [done|]. split.
  - intros vs m Hvs Hm. unfold B64.aggregate.
    change (B64.Array_fill 24 B64.zero) with (B64.dense (replicate 24 B64.zero)).
    rewrite fold_add_flow64_dense by done.
    unfold B64.dense at 1. rewrite list_lookup_fmap.
    erewrite lookup_fold_vadd64; [done|done| |done].
    by apply lookup_replicate_2.
  - intros u v Hu Hv.
    change [B64.dense u; B64.dense v] with (B64.dense <$> [u; v]).
    change [B64.dense v; B64.dense u] with (B64.dense <$> [v; u]).
    unfold B64.aggregate.
    change (B64.Array_fill 24 B64.zero) with (B64.dense (replicate 24 B64.zero)).
    rewrite !fold_add_flow64_dense by (repeat constructor; done).
    f_equal. cbn [fold_left]. unfold vector24 in *.
    apply list_eq. intros i. unfold vadd64. rewrite !lookup_zip_with.
    destruct (replicate 24 B64.zero !! i) as [z|] eqn:Ez; [|done].
    apply lookup_replicate in Ez as [-> _]. simpl.
    destruct (u !! i) as [x|] eqn:Ex, (v !! i) as [y|] eqn:Ey; simpl; try done.
    f_equal. apply add64_zero_swap.
Qed.

Lemma aggregate_in_order_witness :
  B64.aggregate [B64.dense (replicate 24 (B64.decimal 1 1));
                 B64.dense (replicate 24 (B64.decimal 25 1))]
  = B64.aggregate [B64.dense (replicate 24 (B64.decimal 25 1));
                   B64.dense (replicate 24 (B64.decimal 1 1))].
Proof.
  apply (proj2 (proj2 (proj2 aggregate_in_order))); reflexivity.
Defined.

(** C8 as stated fails: the aggregate of three vectors depends on their
    order and on their grouping. With 0.1, 0.2 and 0.3 in every month,
    [(0.1 + 0.2) + 0.3] is 0.6000000000000001 while [(0.3 + 0.2) + 0.1]
    and [0.1 + (0.2 + 0.3)] are 0.6. *)
Lemma aggregate_order_dependent :
  let a := replicate 24 (B64.decimal 1 1) in
  let b := replicate 24 (B64.decimal 2 1) in
  let c := replicate 24 (B64.decimal 3 1) in
  Forall vector24 [a; b; c]
  /\ [a; b; c] ≡ₚ [c; b; a]
  /\ B64.aggregate (B64.dense <$> [a; b; c]) <> B64.aggregate (B64.dense <$> [c; b; a])
  /\ B64.aggregate (B64.dense <$> [a; b; c])
     <> B64.aggregate [B64.aggregate (B64.dense <$> [a]);
                       B64.aggregate (B64.dense <$> [b; c])].
Proof.
  intros a b c. split; [repeat constructor|]. split.
  - etrans; [apply perm_swap|]. etrans; [apply perm_skip, perm_swap|].
    apply perm_swap.
  - split; intros H; apply (f_equal (fun l => l !! 0%nat)) in H;
      vm_compute in H; discriminate.
Qed.

End Aggregation64.
